(** * The tree-command parser emitted by scripts/generate_lark_parser.py

    The script holds, as a Python template, the text of a TypeScript module:
    [parseLarkTreeCommand], the five per-command functions, [parseAttributes]
    and [validateLarkParserConsistency].  This file embeds that module.

    Reading the template: in the template a doubled backslash is one backslash
    of the emitted text and a doubled brace is one brace.  The regular
    expressions of the emitted text are therefore
      - keyword:    start of input, one of ADD REMOVE MOVE RENAME SET
                    (flag i), then one or more white space characters;
      - attribute:  one or more word characters, an equals sign, then a
                    double-quoted run without double quotes, or a single-quoted
                    run without single quotes, or a bare token (flag g);
      - unescaping: backslash-doublequote, backslash-quote, two backslashes,
                    backslash-n, backslash-r, backslash-t, replaced in that
                    order, each over the whole string.
    The template is an f-string up to the declaration of originalLarkGrammar
    (line 201); the text after it, which holds validateLarkParserConsistency,
    is a plain string, so its braces stay doubled in the emitted text.  The
    functions are embedded one by one, each as its emitted text reads: the
    functions before line 201 with single braces, and
    validateLarkParserConsistency with the doubled braces it is emitted with.

    Strings are sequences of UTF-16 code units, objects are lists of own
    properties in creation order, exceptions are the left summand of a sum. *)

From Stdlib Require Import List NArith Bool Lia ZifyBool Arith String Ascii.
From Stdlib Require Import Permutation Sorted.
Import ListNotations.

(** ** Strings *)

Module JS.

(** A UTF-16 code unit. *)
Definition char := N.

Definition JSString := list char.

(** The code units of a text written in ASCII. *)
Definition js (s : string) : JSString :=
  List.map N_of_ascii (list_ascii_of_string s).

Definition DQUOTE : char := 34%N.
Definition SQUOTE : char := 39%N.
Definition BACKSLASH : char := 92%N.
Definition EQUALS : char := 61%N.
Definition SPACE : char := 32%N.
Definition NEWLINE : char := 10%N.
Definition CR : char := 13%N.
Definition TAB : char := 9%N.

Local Open Scope N_scope.

Definition in_range (lo hi c : char) : bool := (lo <=? c) && (c <=? hi).

(** White space and line terminators of ECMAScript: what the class
    backslash-s matches and what [trim] strips. *)
Definition isWhiteSpace (c : char) : bool :=
  in_range 9 13 c || (c =? 32) || (c =? 160) || (c =? 5760)
  || in_range 8192 8202 c || (c =? 8232) || (c =? 8233) || (c =? 8239)
  || (c =? 8287) || (c =? 12288) || (c =? 65279).

Definition isUpper (c : char) : bool := in_range 65 90 c.
Definition isLower (c : char) : bool := in_range 97 122 c.
Definition isDigit (c : char) : bool := in_range 48 57 c.

(** The class backslash-w: letters, digits, underscore. *)
Definition isWordChar (c : char) : bool :=
  isLower c || isUpper c || isDigit c || (c =? 95).

(** First character of a bare token: a letter or an underscore. *)
Definition isBareStart (c : char) : bool :=
  isLower c || isUpper c || (c =? 95).

(** Later characters of a bare token: letters, digits, underscore, hyphen. *)
Definition isBareChar (c : char) : bool :=
  isLower c || isUpper c || isDigit c || (c =? 95) || (c =? 45).

(** Case mapping of one code unit.  The source applies [toUpperCase] only to
    the captured keyword and [toLowerCase] only to a run of word characters;
    on such text the Unicode mappings are these. *)
Definition upper_char (c : char) : char := if isLower c then c - 32 else c.
Definition lower_char (c : char) : char := if isUpper c then c + 32 else c.

Definition toUpperCase (s : JSString) : JSString := List.map upper_char s.
Definition toLowerCase (s : JSString) : JSString := List.map lower_char s.

Fixpoint eqb (a b : JSString) : bool :=
  match a, b with
  | [], [] => true
  | x :: a', y :: b' => (x =? y) && eqb a' b'
  | _, _ => false
  end.

Fixpoint dropWhile (p : char -> bool) (s : JSString) : JSString :=
  match s with
  | [] => []
  | c :: t => if p c then dropWhile p t else s
  end.

Fixpoint takeWhile (p : char -> bool) (s : JSString) : JSString :=
  match s with
  | [] => []
  | c :: t => if p c then c :: takeWhile p t else []
  end.

(** [String.prototype.trim]. *)
Definition trim (s : JSString) : JSString :=
  rev (dropWhile isWhiteSpace (rev (dropWhile isWhiteSpace s))).

(** [String.prototype.startsWith]: the text after the prefix, if any. *)
Fixpoint stripPrefix (p s : JSString) : option JSString :=
  match p, s with
  | [], _ => Some s
  | x :: p', y :: s' => if x =? y then stripPrefix p' s' else None
  | _ :: _, [] => None
  end.

Definition startsWith (s p : JSString) : bool :=
  match stripPrefix p s with Some _ => true | None => false end.

(** [Array.prototype.join]. *)
Fixpoint join (sep : JSString) (l : list JSString) : JSString :=
  match l with
  | [] => []
  | [x] => x
  | x :: t => x ++ sep ++ join sep t
  end.

(** [s.replace(/ab/g, r)] for a pattern of two literal code units and a
    replacement of one: matches are taken left to right and do not overlap. *)
Fixpoint replaceAll2 (a b r : char) (s : JSString) : JSString :=
  match s with
  | [] => []
  | x :: t =>
      match t with
      | [] => [x]
      | y :: t' =>
          if (x =? a) && (y =? b) then r :: replaceAll2 a b r t'
          else x :: replaceAll2 a b r t
      end
  end.

End JS.

Import JS.

(** ** Values and objects *)

(** The values the parser stores: a string, or [undefined]. *)
Inductive JSValue : Type :=
| undefined
| Str (s : JSString).

(** Truthiness: [undefined] and the empty string are falsy. *)
Definition truthy (v : JSValue) : bool :=
  match v with
  | undefined => false
  | Str [] => false
  | Str (_ :: _) => true
  end.

(** The operator [a || b]. *)
Definition or_else (a b : JSValue) : JSValue := if truthy a then a else b.

(** An ordinary object: its own properties, in the order of creation. *)
Definition Obj := list (JSString * JSValue).

(** Property read [o.k]; [undefined] for a missing property.  The names read
    by the source (id, parent, label) are not properties of
    Object.prototype. *)
Fixpoint get (k : JSString) (o : Obj) : JSValue :=
  match o with
  | [] => undefined
  | (k', v) :: t => if JS.eqb k k' then v else get k t
  end.

Fixpoint hasOwn (k : JSString) (o : Obj) : bool :=
  match o with
  | [] => false
  | (k', _) :: t => JS.eqb k k' || hasOwn k t
  end.

(** Definition of an own data property: an existing property keeps its place,
    a new one goes last. *)
Fixpoint defineOwn (k : JSString) (v : JSValue) (o : Obj) : Obj :=
  match o with
  | [] => [(k, v)]
  | (k', v') :: t =>
      if JS.eqb k k' then (k', v) :: t else (k', v') :: defineOwn k v t
  end.

Definition PROTO : JSString := js "__proto__".

(** Assignment [o[k] = v] on an object created by a literal, for [v] a string
    or [undefined]: the name __proto__ reaches the inherited setter, which
    ignores such a value; any other name defines an own property. *)
Definition assign (k : JSString) (v : JSValue) (o : Obj) : Obj :=
  if JS.eqb k PROTO then o else defineOwn k v o.

Local Open Scope N_scope.

(** Value of a run of decimal digits. *)
Definition decimalValue (s : JSString) : N :=
  fold_left (fun n c => 10 * n + (c - 48)) s 0.

(** The array index a property name denotes, if any: a decimal numeral
    without leading zero whose value is below 2^32 - 1. *)
Definition arrayIndex (k : JSString) : option N :=
  match k with
  | [] => None
  | c :: t =>
      if forallb isDigit k && negb ((c =? 48) && negb (Nat.eqb (List.length t) 0))
         && (decimalValue k <? 4294967295)
      then Some (decimalValue k) else None
  end.

Definition isArrayIndex (k : JSString) : bool :=
  match arrayIndex k with Some _ => true | None => false end.

Definition indexOf (k : JSString) : N :=
  match arrayIndex k with Some n => n | None => 0 end.

Fixpoint insertByIndex (k : JSString) (l : list JSString) : list JSString :=
  match l with
  | [] => [k]
  | k' :: t =>
      if indexOf k <=? indexOf k' then k :: l else k' :: insertByIndex k t
  end.

Definition sortByIndex (l : list JSString) : list JSString :=
  fold_right insertByIndex [] l.

(** [Object.keys(o)], also the order in which a spread copies: the names that
    are array indices in ascending numeric order, then the other names in the
    order of creation. *)
Definition Object_keys (o : Obj) : list JSString :=
  sortByIndex (filter isArrayIndex (List.map fst o))
  ++ filter (fun k => negb (isArrayIndex k)) (List.map fst o).

(** The object literal [{ ...a, ...b }]. *)
Definition copyDataProperties (target source : Obj) : Obj :=
  fold_left (fun t k => defineOwn k (get k source) t) (Object_keys source) target.

Definition spread (a b : Obj) : Obj :=
  copyDataProperties (copyDataProperties [] a) b.

(** ** The attribute tokenizer: [parseAttributes] *)

(** One result of [regex.exec]: the capture groups, and the text from
    [lastIndex] on, where the next call resumes.  A group that took no part
    in the match is [undefined]. *)
Record RegExpMatch : Type := mkMatch {
  group1 : JSString;
  group2 : JSValue;
  group3 : JSValue;
  group4 : JSValue;
  after : JSString
}.

(** A quoted value: the quote, the longest run without that quote, the quote.
    A shorter run is followed by a character that is not the quote, so
    backtracking finds nothing more. *)
Definition matchQuoted (q : char) (s : JSString) : option (JSString * JSString) :=
  match s with
  | [] => None
  | c :: t =>
      if (c =? q)%N then
        match dropWhile (fun x => negb (x =? q)%N) t with
        | [] => None
        | _ :: rest => Some (takeWhile (fun x => negb (x =? q)%N) t, rest)
        end
      else None
  end.

(** A bare token; nothing follows it in the pattern, so the longest one is
    taken. *)
Definition matchBare (s : JSString) : option (JSString * JSString) :=
  match s with
  | [] => None
  | c :: t =>
      if isBareStart c
      then Some (c :: takeWhile isBareChar t, dropWhile isBareChar t)
      else None
  end.

(** The three alternatives after the equals sign, in their order. *)
Definition matchValue (s : JSString)
  : option (JSValue * JSValue * JSValue * JSString) :=
  match matchQuoted DQUOTE s with
  | Some (body, rest) => Some (Str body, undefined, undefined, rest)
  | None =>
      match matchQuoted SQUOTE s with
      | Some (body, rest) => Some (undefined, Str body, undefined, rest)
      | None =>
          match matchBare s with
          | Some (tok, rest) => Some (undefined, undefined, Str tok, rest)
          | None => None
          end
      end
  end.

(** The attribute pattern tried at the start of [s].  The name is the longest
    run of word characters: a shorter run is followed by a word character,
    never by the equals sign. *)
Definition matchAt (s : JSString) : option RegExpMatch :=
  match takeWhile isWordChar s, dropWhile isWordChar s with
  | (_ :: _) as name, c :: t =>
      if (c =? EQUALS)%N then
        match matchValue t with
        | Some (g2, g3, g4, rest) => Some (mkMatch name g2 g3 g4 rest)
        | None => None
        end
      else None
  | _, _ => None
  end.

(** [regex.exec(str)] on the text from [lastIndex] on: the first position,
    left to right, at which the pattern matches. *)
Fixpoint exec (s : JSString) : option RegExpMatch :=
  match matchAt s with
  | Some m => Some m
  | None =>
      match s with
      | [] => None
      | _ :: t => exec t
      end
  end.

(** The six replacements, in the order of the source. *)
Definition unescape (value : JSString) : JSString :=
  replaceAll2 BACKSLASH 116%N TAB
    (replaceAll2 BACKSLASH 114%N CR
      (replaceAll2 BACKSLASH 110%N NEWLINE
        (replaceAll2 BACKSLASH BACKSLASH BACKSLASH
          (replaceAll2 BACKSLASH SQUOTE SQUOTE
            (replaceAll2 BACKSLASH DQUOTE DQUOTE value))))).

(** The replacements are applied under the test [match[2] || match[3]],
    where the value is that string. *)
Definition unescapeValue (v : JSValue) : JSValue :=
  match v with
  | Str s => Str (unescape s)
  | undefined => undefined
  end.

(** The key and the value one iteration of the loop stores. *)
Definition matchKey (m : RegExpMatch) : JSString := toLowerCase (group1 m).

(** The value: the first truthy group, unescaped when it is a quoted one. *)
Definition matchValueOf (m : RegExpMatch) : JSValue :=
  let quoted := or_else (group2 m) (group3 m) in
  let value := or_else quoted (group4 m) in
  if truthy quoted then unescapeValue value else value.

(** The loop [while ((match = regex.exec(str)) !== null)], with the
    iterations bounded by [fuel]. *)
Fixpoint parseAttributes_loop (fuel : nat) (str : JSString) (attributes : Obj)
  : Obj :=
  match fuel with
  | O => attributes
  | S fuel' =>
      match exec str with
      | None => attributes
      | Some m =>
          parseAttributes_loop fuel' (after m)
            (assign (matchKey m) (matchValueOf m) attributes)
      end
  end.

(** Every match takes at least one character, so the length of the text
    bounds the iterations (see [parseAttributes_loop_enough]). *)
Definition parseAttributes (str : JSString) : Obj :=
  parseAttributes_loop (List.length str) str [].

(** ** The command parser *)

Inductive Kind : Type := ADD | REMOVE | MOVE | RENAME | SET.

Definition keyword (k : Kind) : JSString :=
  match k with
  | ADD => js "ADD"
  | REMOVE => js "REMOVE"
  | MOVE => js "MOVE"
  | RENAME => js "RENAME"
  | SET => js "SET"
  end.

(** The exceptions of the module, one constructor per form of message. *)
Inductive Error : Type :=
| InvalidCommandFormat
| UnknownCommandType (commandType : JSString)
| MustStartWithId (k : Kind)
| MustHave (k : Kind)
| ShouldOnlyHaveId (extraAttrs : list JSString)
| NothingToSet.

(** The text given to [new Error]. *)
Definition message (e : Error) : JSString :=
  match e with
  | InvalidCommandFormat =>
      js "Invalid command format - must start with ADD, REMOVE, MOVE, RENAME, or SET"
  | UnknownCommandType t => js "Unknown command type: " ++ t
  | MustStartWithId k =>
      keyword k ++ js " command must start with id= (following Lark grammar)"
  | MustHave ADD => js "ADD command must have id"
  | MustHave REMOVE => js "REMOVE command must have id"
  | MustHave MOVE =>
      js "MOVE command must have both id and parent (following Lark grammar)"
  | MustHave RENAME =>
      js "RENAME command must have both id and label (following Lark grammar)"
  | MustHave SET => js "SET command must have id"
  | ShouldOnlyHaveId extraAttrs =>
      js "REMOVE command should only have id, found: "
      ++ join (js ", ") extraAttrs
  | NothingToSet =>
      js "SET command must have at least one attribute to set (following Lark grammar)"
  end.

(** A call either throws or returns the parsed command. *)
Definition Result := (Error + Obj)%type.

Definition ID : JSString := js "id".
Definition ID_PREFIX : JSString := js "id=".

(** The literal [{ type, id: '' }]. *)
Definition initialResult (type : JSString) : Obj :=
  [(js "type", Str type); (ID, Str [])].

(** [Object.keys(attributes).filter(k => k !== 'id')]. *)
Definition extraAttrs (attributes : Obj) : list JSString :=
  filter (fun k => negb (JS.eqb k ID)) (Object_keys attributes).

Definition parseAddCommand (remainder type : JSString) : Result :=
  let result := initialResult type in
  if negb (startsWith remainder ID_PREFIX) then inl (MustStartWithId ADD)
  else
    let attributes := parseAttributes remainder in
    if negb (truthy (get ID attributes)) then inl (MustHave ADD)
    else inr (spread result attributes).

Definition parseRemoveCommand (remainder type : JSString) : Result :=
  let result := initialResult type in
  if negb (startsWith remainder ID_PREFIX) then inl (MustStartWithId REMOVE)
  else
    let attributes := parseAttributes remainder in
    if negb (truthy (get ID attributes)) then inl (MustHave REMOVE)
    else
      let extra := extraAttrs attributes in
      if Nat.ltb 0 (List.length extra) then inl (ShouldOnlyHaveId extra)
      else inr (spread result attributes).

Definition parseMoveCommand (remainder type : JSString) : Result :=
  let result := initialResult type in
  if negb (startsWith remainder ID_PREFIX) then inl (MustStartWithId MOVE)
  else
    let attributes := parseAttributes remainder in
    if negb (truthy (get ID attributes))
       || negb (truthy (get (js "parent") attributes))
    then inl (MustHave MOVE)
    else inr (spread result attributes).

Definition parseRenameCommand (remainder type : JSString) : Result :=
  let result := initialResult type in
  if negb (startsWith remainder ID_PREFIX) then inl (MustStartWithId RENAME)
  else
    let attributes := parseAttributes remainder in
    if negb (truthy (get ID attributes))
       || negb (truthy (get (js "label") attributes))
    then inl (MustHave RENAME)
    else inr (spread result attributes).

Definition parseSetCommand (remainder type : JSString) : Result :=
  let result := initialResult type in
  if negb (startsWith remainder ID_PREFIX) then inl (MustStartWithId SET)
  else
    let attributes := parseAttributes remainder in
    if negb (truthy (get ID attributes)) then inl (MustHave SET)
    else
      let extra := extraAttrs attributes in
      if Nat.eqb (List.length extra) 0 then inl NothingToSet
      else inr (spread result attributes).

(** Case-insensitive comparison of the flag i, against a pattern made of
    ASCII capital letters: a code unit matches such a letter when it is the
    letter or its small form (a code unit above 127 is never canonicalised
    into ASCII). *)
Fixpoint matchLiteralCI (pat s : JSString) : option (JSString * JSString) :=
  match pat, s with
  | [], _ => Some ([], s)
  | p :: pat', c :: s' =>
      if (upper_char c =? p)%N then
        match matchLiteralCI pat' s' with
        | Some (cap, rest) => Some (c :: cap, rest)
        | None => None
        end
      else None
  | _ :: _, [] => None
  end.

(** One or more white space characters, as many as there are. *)
Definition matchSpaces (s : JSString) : option JSString :=
  match s with
  | [] => None
  | c :: t => if isWhiteSpace c then Some (dropWhile isWhiteSpace t) else None
  end.

(** The alternatives of the keyword pattern, tried in order, each followed by
    the white space. *)
Fixpoint matchAlternatives (alts : list JSString) (s : JSString)
  : option (JSString * JSString) :=
  match alts with
  | [] => None
  | a :: more =>
      match matchLiteralCI a s with
      | Some (cap, rest) =>
          match matchSpaces rest with
          | Some rest' => Some (cap, rest')
          | None => matchAlternatives more s
          end
      | None => matchAlternatives more s
      end
  end.

(** [cmd.match] with the keyword pattern: group 1 and
    [cmd.slice(commandMatch[0].length)]. *)
Definition commandMatch (cmd : JSString) : option (JSString * JSString) :=
  matchAlternatives
    [keyword ADD; keyword REMOVE; keyword MOVE; keyword RENAME; keyword SET] cmd.

Definition parseLarkTreeCommand (commandString : JSString) : Result :=
  let cmd := trim commandString in
  match commandMatch cmd with
  | None => inl InvalidCommandFormat
  | Some (g1, remainder) =>
      let commandType := toUpperCase g1 in
      if JS.eqb commandType (js "ADD") then
        parseAddCommand remainder commandType
      else if JS.eqb commandType (js "REMOVE") then
        parseRemoveCommand remainder commandType
      else if JS.eqb commandType (js "MOVE") then
        parseMoveCommand remainder commandType
      else if JS.eqb commandType (js "RENAME") then
        parseRenameCommand remainder commandType
      else if JS.eqb commandType (js "SET") then
        parseSetCommand remainder commandType
      else inl (UnknownCommandType commandType)
  end.

(** ** The self-consistency check *)

(** A text between double quotes. *)
Definition quoted (s : JSString) : JSString := DQUOTE :: s ++ [DQUOTE].

Definition testCases : list JSString :=
  [ js "ADD id=node1";
    js "ADD id=node1 label=" ++ quoted (js "Test");
    js "ADD id=node1 parent=root";
    js "REMOVE id=node1";
    js "MOVE id=node1 parent=root";
    js "RENAME id=node1 label=" ++ quoted (js "New Name");
    js "SET id=node1 value=" ++ quoted (js "test") ].

(** *** Braces in the template *)

Definition LBRACE : char := 123%N.
Definition RBRACE : char := 125%N.

(** What an f-string gives for a piece of its text without replacement
    field: a doubled brace is one brace. *)
Fixpoint fstringText (s : JSString) : JSString :=
  match s with
  | [] => []
  | a :: r =>
      match r with
      | [] => [a]
      | b :: t =>
          if ((a =? LBRACE)%N || (a =? RBRACE)%N) && (b =? a)%N
          then a :: fstringText t
          else a :: fstringText r
      end
  end.

(** The two strings the template is built from: the f-string that ends on
    line 201 and the plain string after it. *)
Inductive TemplatePart : Type := FString | PlainString.

(** The emitted text of a piece of the template. *)
Definition emitted (part : TemplatePart) (text : JSString) : JSString :=
  match part with
  | FString => fstringText text
  | PlainString => text
  end.

(** An object type and an object literal open with a brace followed by a
    member; no member starts with a brace.  A text that opens with two
    braces, white space between them or not, is neither. *)
Definition opensObject (text : JSString) : bool :=
  match text with
  | [] => false
  | c :: r =>
      (c =? LBRACE)%N
      && match dropWhile isWhiteSpace r with
         | [] => false
         | d :: _ => negb (d =? LBRACE)%N
         end
  end.

(** The return type of parseAttributes as the template has it (line 170, in
    the f-string). *)
Definition attributesType : JSString := js "{{ [key: string]: string }}".

(** The return type of validateLarkParserConsistency as the template has it
    (line 206, in the plain string). *)
Definition consistencyType : JSString :=
  js "{{ isConsistent: boolean; issues: string[] }}".

(** The operand of its return statement (lines 228 to 231). *)
Definition consistencyValue : JSString :=
  js "{{" ++ [NEWLINE] ++ js "    isConsistent: issues.length === 0,"
  ++ [NEWLINE] ++ js "    issues" ++ [NEWLINE] ++ js "  }}".

(** *** The body *)

(** The text pushed for a case that threw.  The two substitutions of the
    template literal are emitted with doubled braces: each holds an object
    literal, and an object prints as the text below whatever it holds. *)
Definition issueText : JSString :=
  js "Failed to parse valid case: " ++ quoted (js "[object Object]")
  ++ js " - [object Object]".

Record Consistency : Type := mkConsistency {
  isConsistent : bool;
  issues : list JSString
}.

(** The loop over the cases: the issues it collects.  The doubled braces
    around its statements are blocks inside blocks. *)
Definition collectedIssues : list JSString :=
  fold_left
    (fun issues testCase =>
       match parseLarkTreeCommand testCase with
       | inl _ => issues ++ [issueText]
       | inr _ => issues
       end)
    testCases [].

(** The function as emitted: there is a result only when its declaration and
    its return statement are well formed. *)
Definition validateLarkParserConsistency : option Consistency :=
  if opensObject (emitted PlainString consistencyType)
     && opensObject (emitted PlainString consistencyValue)
  then Some (mkConsistency (Nat.eqb (List.length collectedIssues) 0)
               collectedIssues)
  else None.

(** ** Notions used to state the properties *)

(** The successive results of [regex.exec] over [str]. *)
Fixpoint execAll (fuel : nat) (str : JSString) : list RegExpMatch :=
  match fuel with
  | O => []
  | S fuel' =>
      match exec str with
      | None => []
      | Some m => m :: execAll fuel' (after m)
      end
  end.

(** All the matches of the attribute pattern in [str], left to right. *)
Definition matches (str : JSString) : list RegExpMatch :=
  execAll (List.length str) str.

(** One iteration of the loop body. *)
Definition store (a : Obj) (m : RegExpMatch) : Obj :=
  assign (matchKey m) (matchValueOf m) a.

(** The loop run to its end from [str] with the object [a]. *)
Definition parseFrom (str : JSString) (a : Obj) : Obj :=
  parseAttributes_loop (List.length str) str a.

(** The resolved kind, and the text handed to the per-kind function. *)
Definition resolve (commandString : JSString) : option (Kind * JSString) :=
  match commandMatch (trim commandString) with
  | None => None
  | Some (g1, remainder) =>
      let t := toUpperCase g1 in
      if JS.eqb t (js "ADD") then Some (ADD, remainder)
      else if JS.eqb t (js "REMOVE") then Some (REMOVE, remainder)
      else if JS.eqb t (js "MOVE") then Some (MOVE, remainder)
      else if JS.eqb t (js "RENAME") then Some (RENAME, remainder)
      else if JS.eqb t (js "SET") then Some (SET, remainder)
      else None
  end.

(** The per-kind function the [switch] selects, with the type it receives. *)
Definition parseKind (k : Kind) (remainder : JSString) : Result :=
  match k with
  | ADD => parseAddCommand remainder (keyword ADD)
  | REMOVE => parseRemoveCommand remainder (keyword REMOVE)
  | MOVE => parseMoveCommand remainder (keyword MOVE)
  | RENAME => parseRenameCommand remainder (keyword RENAME)
  | SET => parseSetCommand remainder (keyword SET)
  end.

(** The escape example of the specification: label, an equals sign, and
    between double quotes the seven characters a, backslash, double quote, b,
    backslash, n, c. *)
Definition escapeSample : JSString :=
  js "label="
  ++ quoted (js "a" ++ [BACKSLASH; DQUOTE] ++ js "b" ++ [BACKSLASH] ++ js "nc").

(** The same value between single quotes. *)
Definition escapeSampleSingle : JSString :=
  js "label=" ++ [SQUOTE]
  ++ js "a" ++ [BACKSLASH; DQUOTE] ++ js "b" ++ [BACKSLASH] ++ js "nc"
  ++ [SQUOTE].

(** Parsing succeeds, and the result has the given id. *)
Definition parsesWithId (commandString id : JSString) : Prop :=
  exists r, parseLarkTreeCommand commandString = inr r /\ get ID r = Str id.

(** Parsing succeeds. *)
Definition parses (commandString : JSString) : Prop :=
  exists r, parseLarkTreeCommand commandString = inr r.

(** No white space character comes first in [rest]. *)
Definition noSpaceAhead (rest : JSString) : Prop :=
  forall c t, rest = c :: t -> isWhiteSpace c = false.

(** A value is [undefined] or a non-empty string. *)
Definition properValue (v : JSValue) : Prop :=
  v = undefined \/ exists c t, v = Str (c :: t).

(** The attributes each per-kind function tests after the prefix. *)
Definition required (k : Kind) : list JSString :=
  match k with
  | MOVE => [ID; js "parent"]
  | RENAME => [ID; js "label"]
  | ADD | REMOVE | SET => [ID]
  end.

(** [String.prototype.includes]. *)
Fixpoint includes (s p : JSString) : bool :=
  startsWith s p
  || match s with
     | [] => false
     | _ :: t => includes t p
     end.

(** No attribute besides id. *)
Definition onlyId (attributes : Obj) : Prop :=
  forall k, hasOwn k attributes = true -> k = ID.

(** The names an assignment stores. *)
Definition notProto (k : JSString) : bool := negb (JS.eqb k PROTO).

(** The names of [l] in the order of their first occurrence, leaving out the
    names already in [seen]. *)
Fixpoint firstOccurrences (seen l : list JSString) : list JSString :=
  match l with
  | [] => []
  | k :: t =>
      if existsb (JS.eqb k) seen then firstOccurrences seen t
      else k :: firstOccurrences (seen ++ [k]) t
  end.

(** The attribute names in the order in which the scan first meets them
    (the name __proto__ is never stored). *)
Definition encountered (str : JSString) : list JSString :=
  firstOccurrences [] (filter notProto (List.map matchKey (matches str))).

(** Ascending numeric order of array indices. *)
Definition indexLe (a b : JSString) : Prop := (indexOf a <= indexOf b)%N.

(** The text of a value; none for [undefined]. *)
Definition valueText (v : JSValue) : JSString :=
  match v with
  | Str s => s
  | undefined => []
  end.

(** Modelled from the spec: the re-serialisation of a mapping into
    name="value" form (section 8), which no function of the source performs.
    Each entry is written as its name, an equals sign and its value between
    double quotes, an entry without value with nothing between the quotes;
    the entries follow the order of Object.keys and are separated by one
    space. *)
Definition serializeEntry (k : JSString) (v : JSValue) : JSString :=
  k ++ [EQUALS] ++ quoted (valueText v).

(** Modelled from the spec: the whole mapping re-serialised into one string
    (section 8), entry by entry as above. *)
Definition serialize (o : Obj) : JSString :=
  join [SPACE] (List.map (fun k => serializeEntry k (get k o)) (Object_keys o)).

(** Two objects hold the same mapping: the same names in the same order of
    enumeration, with the same values. *)
Definition sameMapping (a b : Obj) : Prop :=
  Object_keys a = Object_keys b /\ forall k, get k a = get k b.

(** A value without double quote. *)
Definition unquotedValue (v : JSValue) : Prop :=
  Forall (fun c => c <> DQUOTE) (valueText v).

(** A name as the tokenizer stores it: a non-empty run of word characters
    without capital letters, other than __proto__. *)
Definition storedName (k : JSString) : Prop :=
  k <> [] /\ Forall (fun c => isWordChar c = true) k /\ toLowerCase k = k
  /\ k <> PROTO.

(** An entry that can be written between double quotes. *)
Definition unquotedEntry (e : JSString * JSValue) : Prop :=
  storedName (fst e) /\ properValue (snd e) /\ unquotedValue (snd e).

(** An entry as it is read back: its value unescaped once more. *)
Definition readBack (e : JSString * JSValue) : JSString * JSValue :=
  (fst e, unescapeValue (snd e)).

(** The serialised form of an entry given as a pair. *)
Definition entryText (e : JSString * JSValue) : JSString :=
  serializeEntry (fst e) (snd e).

(** ** Further notions *)

(** [String.prototype.trimEnd]; [trim] strips the start, then the end. *)
Definition trimEnd (s : JSString) : JSString :=
  rev (dropWhile isWhiteSpace (rev s)).

(** A text made of white space only. *)
Definition allSpaces (w : JSString) : Prop :=
  Forall (fun c => isWhiteSpace c = true) w.

Definition Kind_eqb (a b : Kind) : bool :=
  match a, b with
  | ADD, ADD | REMOVE, REMOVE | MOVE, MOVE | RENAME, RENAME | SET, SET => true
  | _, _ => false
  end.

(** What an error says about the line that raised it. *)
Definition errorCause (commandString : JSString) (e : Error) : Prop :=
  match e with
  | InvalidCommandFormat => resolve commandString = None
  | UnknownCommandType _ => False
  | MustStartWithId k =>
      exists remainder,
        resolve commandString = Some (k, remainder)
        /\ startsWith remainder ID_PREFIX = false
  | MustHave k =>
      exists remainder,
        resolve commandString = Some (k, remainder)
        /\ startsWith remainder ID_PREFIX = true
        /\ exists a, In a (required k)
                     /\ truthy (get a (parseAttributes remainder)) = false
  | ShouldOnlyHaveId extra =>
      exists remainder,
        resolve commandString = Some (REMOVE, remainder)
        /\ extra = extraAttrs (parseAttributes remainder)
        /\ extra <> [] /\ ~ In ID extra /\ NoDup extra
        /\ forall k, In k extra -> hasOwn k (parseAttributes remainder) = true
  | NothingToSet =>
      exists remainder,
        resolve commandString = Some (SET, remainder)
        /\ onlyId (parseAttributes remainder)
  end.

(** The conditions under which a line of kind [k] with the text [remainder]
    after the keyword is accepted. *)
Definition accepted (k : Kind) (remainder : JSString) : Prop :=
  startsWith remainder ID_PREFIX = true
  /\ (forall a, In a (required k) ->
        truthy (get a (parseAttributes remainder)) = true)
  /\ (k = REMOVE -> onlyId (parseAttributes remainder))
  /\ (k = SET -> ~ onlyId (parseAttributes remainder)).

Definition TYPE : JSString := js "type".

(** The three forms of an attribute value, as one match of the pattern
    records them, with what the loop stores for each. *)
Definition valueForm (m : RegExpMatch) : Prop :=
  (exists body,
      group2 m = Str body /\ group3 m = undefined /\ group4 m = undefined
      /\ ~ In DQUOTE body
      /\ matchValueOf m
         = match body with [] => undefined | _ :: _ => Str (unescape body) end
      /\ ~ In DQUOTE (unescape body))
  \/ (exists body,
        group2 m = undefined /\ group3 m = Str body /\ group4 m = undefined
        /\ ~ In SQUOTE body
        /\ matchValueOf m
           = match body with [] => undefined | _ :: _ => Str (unescape body) end
        /\ ~ In SQUOTE (unescape body))
  \/ (exists c t,
        group2 m = undefined /\ group3 m = undefined
        /\ group4 m = Str (c :: t)
        /\ isBareStart c = true /\ Forall (fun x => isBareChar x = true) t
        /\ matchValueOf m = Str (c :: t)).

(** A text without backslash. *)
Definition plainText (s : JSString) : Prop :=
  Forall (fun c => c <> BACKSLASH) s.

(** What the six replacements make of a backslash followed by [e], for [e]
    other than a backslash. *)
Definition escapeResult (e : char) : JSString :=
  if (e =? DQUOTE)%N then [DQUOTE]
  else if (e =? SQUOTE)%N then [SQUOTE]
  else if (e =? 110)%N then [NEWLINE]
  else if (e =? 114)%N then [CR]
  else if (e =? 116)%N then [TAB]
  else [BACKSLASH; e].

(** What the six replacements make of two backslashes followed by the plain
    text [t]. *)
Definition doubleBackslashResult (t : JSString) : JSString :=
  match t with
  | [] => [BACKSLASH]
  | y :: t' =>
      if (y =? 110)%N then NEWLINE :: t'
      else if (y =? 114)%N then CR :: t'
      else if (y =? 116)%N then TAB :: t'
      else BACKSLASH :: t
  end.

(** Two errors of the same form: the same constructor, for the same kind
    where a kind is named. *)
Definition sameForm (e1 e2 : Error) : Prop :=
  match e1, e2 with
  | InvalidCommandFormat, InvalidCommandFormat => True
  | UnknownCommandType _, UnknownCommandType _ => True
  | MustStartWithId a, MustStartWithId b => a = b
  | MustHave a, MustHave b => a = b
  | ShouldOnlyHaveId _, ShouldOnlyHaveId _ => True
  | NothingToSet, NothingToSet => True
  | _, _ => False
  end.

(** ** The generator: how the grammar text enters the emitted module

    [generate_simple_lark_parser] places the grammar text twice in the text
    it returns: line by line in the leading comment, and escaped between the
    backticks of the template that defines originalLarkGrammar.  The two
    Python expressions are embedded here.  Texts are given by their UTF-16
    code units, as before; the separator and the replaced patterns are
    ASCII, so the Python operations act on such a text as they do on the
    code points. *)

Definition BACKTICK : char := 96%N.
Definition DOLLAR : char := 36%N.

(** [s.split(sep)] for a separator of one character. *)
Fixpoint split (sep : char) (s : JSString) : list JSString :=
  match s with
  | [] => [[]]
  | c :: t =>
      if (c =? sep)%N then [] :: split sep t
      else
        match split sep t with
        | line :: more => (c :: line) :: more
        | [] => [[c]]
        end
  end.

(** A line: a text without the separator. *)
Definition noSep (sep : char) (line : JSString) : Prop :=
  Forall (fun c => c <> sep) line.

Definition COMMENT_PREFIX : JSString := js " * ".

(** The expression of line 29: every line of the grammar after the three
    characters space, star, space, the lines joined by newlines. *)
Definition commentLines (grammar_content : JSString) : JSString :=
  join [NEWLINE]
    (List.map (fun line => COMMENT_PREFIX ++ line) (split NEWLINE grammar_content)).

(** [s.replace(old, new)] for [old] of one character. *)
Fixpoint replaceChar (old : char) (new s : JSString) : JSString :=
  match s with
  | [] => []
  | c :: t =>
      if (c =? old)%N then new ++ replaceChar old new t
      else c :: replaceChar old new t
  end.

(** [s.replace(old, new)] for [old] of two characters [a], [b]: occurrences
    are taken left to right and do not overlap. *)
Fixpoint replacePair (a b : char) (new s : JSString) : JSString :=
  match s with
  | [] => []
  | x :: t =>
      match t with
      | [] => [x]
      | y :: t' =>
          if (x =? a)%N && (y =? b)%N then new ++ replacePair a b new t'
          else x :: replacePair a b new t
      end
  end.

(** The expression of line 201: a backslash put before every backtick, then
    before every dollar sign that a left brace follows. *)
Definition escapedGrammar (grammar_content : JSString) : JSString :=
  replacePair DOLLAR LBRACE [BACKSLASH; DOLLAR; LBRACE]
    (replaceChar BACKTICK [BACKSLASH; BACKTICK] grammar_content).

(** A hexadecimal digit, in either case, and its value. *)
Definition isHexDigit (c : char) : bool :=
  isDigit c || in_range 97 102 c || in_range 65 70 c.

Definition hexValue (c : char) : N :=
  (if isDigit c then c - 48 else if in_range 97 102 c then c - 87 else c - 55)%N.

(** The UTF-16 code units of a code point. *)
Definition utf16 (cp : N) : JSString :=
  (if cp <? 65536 then [cp]
   else [55296 + (cp - 65536) / 1024; 56320 + (cp - 65536) mod 1024])%N.

(** Where the reading of a template body stands: in plain text, or after a
    dollar sign not yet emitted, after a backslash, after backslash-0 (the
    NUL not yet emitted), inside a hexadecimal escape with [n] digits still
    to come, after backslash-u, inside the braces of a Unicode escape, or
    after a carriage return (a line feed right after it belongs to the same
    line terminator). *)
Inductive LexState : Type :=
| Normal
| Dollar
| Backslash
| Zero
| Hex (n : nat) (acc : N)
| UStart
| UBrace (acc : N) (seen : bool)
| AfterCR.

(** A character of plain text: a backtick ends the template, so the text is
    not its whole body; a carriage return counts as a line feed. *)
Definition normalChar (c : char) : option (JSString * LexState) :=
  if (c =? BACKTICK)%N then None
  else if (c =? BACKSLASH)%N then Some ([], Backslash)
  else if (c =? DOLLAR)%N then Some ([], Dollar)
  else if (c =? CR)%N then Some ([NEWLINE], AfterCR)
  else Some ([c], Normal).

Definition withPending (p : JSString) (r : option (JSString * LexState))
  : option (JSString * LexState) :=
  match r with
  | Some (out, st) => Some (p ++ out, st)
  | None => None
  end.

(** The character after a backslash: the escapes of ECMAScript.  The letters
    b f n r t v give control characters; 0 gives NUL unless a digit follows;
    the digits 1 to 9 are an error in a template; x starts two hexadecimal
    digits, u a Unicode escape; a line terminator is a line continuation and
    gives nothing; any other character gives itself. *)
Definition characterEscape (c : char) : option (JSString * LexState) :=
  if (c =? 98)%N then Some ([8%N], Normal)
  else if (c =? 102)%N then Some ([12%N], Normal)
  else if (c =? 110)%N then Some ([10%N], Normal)
  else if (c =? 114)%N then Some ([13%N], Normal)
  else if (c =? 116)%N then Some ([9%N], Normal)
  else if (c =? 118)%N then Some ([11%N], Normal)
  else if (c =? 48)%N then Some ([], Zero)
  else if isDigit c then None
  else if (c =? 120)%N then Some ([], Hex 2 0%N)
  else if (c =? 117)%N then Some ([], UStart)
  else if (c =? CR)%N then Some ([], AfterCR)
  else if (c =? 10)%N || (c =? 8232)%N || (c =? 8233)%N then Some ([], Normal)
  else Some ([c], Normal).

(** One character read in a state: what is emitted and the next state, or
    [None] when the text cannot be the body of a template without
    substitution (it ends early, opens a substitution, or holds a malformed
    escape). *)
Definition lexStep (st : LexState) (c : char) : option (JSString * LexState) :=
  match st with
  | Normal => normalChar c
  | Dollar =>
      if (c =? LBRACE)%N then None else withPending [DOLLAR] (normalChar c)
  | AfterCR => if (c =? NEWLINE)%N then Some ([], Normal) else normalChar c
  | Zero => if isDigit c then None else withPending [0%N] (normalChar c)
  | Backslash => characterEscape c
  | Hex n acc =>
      if isHexDigit c then
        match n with
        | O => None
        | S O => Some ([(16 * acc + hexValue c)%N], Normal)
        | S n' => Some ([], Hex n' (16 * acc + hexValue c)%N)
        end
      else None
  | UStart =>
      if (c =? LBRACE)%N then Some ([], UBrace 0%N false)
      else if isHexDigit c then Some ([], Hex 3 (hexValue c))
      else None
  | UBrace acc seen =>
      if isHexDigit c then
        if (16 * acc + hexValue c <=? 1114111)%N
        then Some ([], UBrace (16 * acc + hexValue c)%N true)
        else None
      else if (c =? RBRACE)%N then
        if seen then Some (utf16 acc, Normal) else None
      else None
  end.

(** The end of the text in a state. *)
Definition lexEnd (st : LexState) : option JSString :=
  match st with
  | Normal | AfterCR => Some []
  | Dollar => Some [DOLLAR]
  | Zero => Some [0%N]
  | Backslash | Hex _ _ | UStart | UBrace _ _ => None
  end.

Fixpoint lexTemplate (st : LexState) (body : JSString) : option JSString :=
  match body with
  | [] => lexEnd st
  | c :: t =>
      match lexStep st c with
      | Some (out, st') =>
          match lexTemplate st' t with
          | Some v => Some (out ++ v)
          | None => None
          end
      | None => None
      end
  end.

(** The string a template without substitution evaluates to, given the text
    between its backticks, as ECMAScript defines the template value; [None]
    when the text is not the whole body of such a template. *)
Definition templateValue (body : JSString) : option JSString :=
  lexTemplate Normal body.

(** How many characters more than the text still to read a state may emit,
    and how many fewer. *)
Definition lexSlack (st : LexState) : nat :=
  match st with
  | Dollar | Zero | UBrace _ true => 1
  | _ => 0
  end.

Definition lexDebt (st : LexState) : nat :=
  match st with
  | Hex n _ => Nat.pred n
  | UStart => 1
  | _ => 0
  end.

(** The states reached while no backslash has been read. *)
Definition plainState (st : LexState) : Prop :=
  st = Normal \/ st = Dollar \/ st = AfterCR.

(** The comment lines, written as one pass over the grammar: the prefix is
    put in after every newline. *)
Fixpoint prefixAfterNewlines (s : JSString) : JSString :=
  match s with
  | [] => []
  | c :: t =>
      if (c =? NEWLINE)%N then NEWLINE :: COMMENT_PREFIX ++ prefixAfterNewlines t
      else c :: prefixAfterNewlines t
  end.

(** The escaping, written as one pass over the grammar. *)
Fixpoint escapeOnce (s : JSString) : JSString :=
  match s with
  | [] => []
  | c :: t =>
      if (c =? BACKTICK)%N then BACKSLASH :: BACKTICK :: escapeOnce t
      else
        match t with
        | [] => [c]
        | y :: t' =>
            if (c =? DOLLAR)%N && (y =? LBRACE)%N
            then BACKSLASH :: DOLLAR :: LBRACE :: escapeOnce t'
            else c :: escapeOnce t
        end
  end.

(** The end of a block comment: a star and a slash. *)
Definition COMMENT_END : JSString := js "*/".

(** * Properties *)

(** ** Characters and strings *)

(** Facts on character classes are linear arithmetic on code units. *)
Ltac char_cases :=
  unfold upper_char, lower_char in *;
  unfold isWordChar, isBareStart, isBareChar, isWhiteSpace in *;
  unfold isLower, isUpper, isDigit in *;
  unfold in_range, DQUOTE, SQUOTE, BACKSLASH, EQUALS, SPACE, char in *;
  repeat match goal with
         | |- context [if ?b then _ else _] => destruct b eqn:?
         end;
  lia.

Lemma eqb_eq (a b : JSString) : JS.eqb a b = true <-> a = b.
Proof.
  revert b; induction a as [|x a IH]; intros [|y b]; simpl; split;
    try congruence; try reflexivity.
  - intros H. apply andb_true_iff in H as [H1 H2].
    apply N.eqb_eq in H1. apply IH in H2. congruence.
  - intros H. inversion H; subst. rewrite N.eqb_refl. simpl. now apply IH.
Qed.

Lemma eqb_refl (a : JSString) : JS.eqb a a = true.
Proof. now apply eqb_eq. Qed.

Lemma eqb_neq (a b : JSString) : JS.eqb a b = false <-> a <> b.
Proof.
  split.
  - intros H E. apply eqb_eq in E. congruence.
  - intros H. destruct (JS.eqb a b) eqn:E; [|reflexivity].
    apply eqb_eq in E. contradiction.
Qed.

(** ** Lists *)

Section Runs.

Variable p : char -> bool.

Lemma takeWhile_dropWhile (s : JSString) :
  takeWhile p s ++ dropWhile p s = s.
Proof.
  induction s as [|c s IH]; simpl; [reflexivity|].
  destruct (p c); simpl; [now rewrite IH | reflexivity].
Qed.

Lemma dropWhile_length (s : JSString) :
  (List.length (dropWhile p s) <= List.length s)%nat.
Proof.
  induction s as [|c s IH]; simpl; [lia|]. destruct (p c); simpl; lia.
Qed.

Lemma takeWhile_all (s : JSString) :
  Forall (fun c => p c = true) (takeWhile p s).
Proof.
  induction s as [|c s IH]; simpl; [constructor|].
  destruct (p c) eqn:E; [constructor; assumption | constructor].
Qed.

(** A run that satisfies [p], stopped by a character that does not. *)
Lemma takeWhile_app_stop (a : JSString) (c : char) (t : JSString) :
  Forall (fun x => p x = true) a -> p c = false ->
  takeWhile p (a ++ c :: t) = a /\ dropWhile p (a ++ c :: t) = c :: t.
Proof.
  intros Ha Hc. induction Ha as [|x a Hx Ha IH]; simpl.
  - now rewrite Hc.
  - rewrite Hx. destruct IH as [IH1 IH2]. now rewrite IH1, IH2.
Qed.

End Runs.

Section Filters.

Variable A : Type.
Variable p : A -> bool.

Lemma filter_partition_perm (l : list A) :
  Permutation l (filter p l ++ filter (fun x => negb (p x)) l).
Proof.
  induction l as [|x l IH]; simpl; [constructor|].
  destruct (p x); simpl.
  - now constructor.
  - now apply Permutation_cons_app.
Qed.

Lemma filter_nil_iff (l : list A) :
  filter p l = [] <-> forall x, In x l -> p x = false.
Proof.
  induction l as [|x l IH]; simpl.
  - split; [intros _ y [] | reflexivity].
  - destruct (p x) eqn:E.
    + split; [discriminate|]. intros H. specialize (H x (or_introl eq_refl)).
      congruence.
    + rewrite IH. split.
      * intros H y [<-|Hy]; auto.
      * intros H y Hy. apply H. now right.
Qed.

Lemma filter_all (l : list A) :
  Forall (fun x => p x = true) l -> filter p l = l.
Proof.
  induction 1 as [|x l Hx Hl IH]; simpl; [reflexivity|]. now rewrite Hx, IH.
Qed.

Lemma filter_none (l : list A) :
  Forall (fun x => p x = false) l -> filter p l = [].
Proof.
  induction 1 as [|x l Hx Hl IH]; simpl; [reflexivity|]. now rewrite Hx.
Qed.

Lemma filter_Forall (l : list A) :
  Forall (fun x => p x = true) (filter p l).
Proof.
  induction l as [|x l IH]; simpl; [constructor|].
  destruct (p x) eqn:E; [constructor; assumption | assumption].
Qed.

End Filters.

Lemma filter_filter (A : Type) (p q : A -> bool) (l : list A) :
  filter p (filter q l) = filter (fun x => q x && p x) l.
Proof.
  induction l as [|x l IH]; simpl; [reflexivity|].
  destruct (q x); simpl; [destruct (p x); now rewrite IH | exact IH].
Qed.

Lemma length_zero_nil (A : Type) (l : list A) :
  Nat.eqb (List.length l) 0 = true <-> l = [].
Proof. destruct l; simpl; split; congruence. Qed.

(** ** Objects *)

Lemma get_defineOwn_same (k : JSString) (v : JSValue) (o : Obj) :
  get k (defineOwn k v o) = v.
Proof.
  induction o as [|[k' v'] o IH]; simpl.
  - now rewrite eqb_refl.
  - destruct (JS.eqb k k') eqn:E; simpl; rewrite E; [reflexivity | exact IH].
Qed.

Lemma get_defineOwn_other (k k' : JSString) (v : JSValue) (o : Obj) :
  k <> k' -> get k (defineOwn k' v o) = get k o.
Proof.
  intros Hne. induction o as [|[k2 v2] o IH]; simpl.
  - apply eqb_neq in Hne. now rewrite Hne.
  - destruct (JS.eqb k' k2) eqn:E; simpl.
    + apply eqb_eq in E; subst k2. apply eqb_neq in Hne. now rewrite Hne.
    + destruct (JS.eqb k k2); [reflexivity | exact IH].
Qed.

Lemma hasOwn_In (k : JSString) (o : Obj) :
  hasOwn k o = true <-> In k (List.map fst o).
Proof.
  induction o as [|[k' v'] o IH]; simpl.
  - split; [discriminate | tauto].
  - rewrite orb_true_iff, IH, eqb_eq. split; intros [H|H]; auto.
Qed.

Lemma get_not_In (k : JSString) (o : Obj) :
  ~ In k (List.map fst o) -> get k o = undefined.
Proof.
  induction o as [|[k' v'] o IH]; simpl; [reflexivity|].
  intros H. destruct (JS.eqb k k') eqn:E.
  - apply eqb_eq in E. subst. tauto.
  - apply IH. tauto.
Qed.

Lemma truthy_get_In (k : JSString) (o : Obj) :
  truthy (get k o) = true -> In k (List.map fst o).
Proof.
  intros H. destruct (in_dec (list_eq_dec N.eq_dec) k (List.map fst o)) as [Hin|Hn];
    [assumption|].
  rewrite (get_not_In _ _ Hn) in H. discriminate.
Qed.

Lemma keys_defineOwn (k : JSString) (v : JSValue) (o : Obj) :
  List.map fst (defineOwn k v o) =
  if hasOwn k o then List.map fst o else List.map fst o ++ [k].
Proof.
  induction o as [|[k' v'] o IH]; simpl; [reflexivity|].
  destruct (JS.eqb k k') eqn:E; simpl; [reflexivity|].
  rewrite IH. now destruct (hasOwn k o).
Qed.

Lemma defineOwn_fresh (k : JSString) (v : JSValue) (o : Obj) :
  ~ In k (List.map fst o) -> defineOwn k v o = o ++ [(k, v)].
Proof.
  induction o as [|[k' v'] o IH]; simpl; [reflexivity|].
  intros H. destruct (JS.eqb k k') eqn:E.
  - apply eqb_eq in E. subst. tauto.
  - rewrite IH by tauto. reflexivity.
Qed.

(** *** The order of [Object.keys] *)

Lemma insertByIndex_perm (k : JSString) (l : list JSString) :
  Permutation (k :: l) (insertByIndex k l).
Proof.
  induction l as [|k' l IH]; simpl; [reflexivity|].
  destruct (indexOf k <=? indexOf k')%N; [reflexivity|].
  rewrite perm_swap. now constructor.
Qed.

Lemma sortByIndex_perm (l : list JSString) : Permutation l (sortByIndex l).
Proof.
  induction l as [|k l IH]; simpl; [constructor|].
  rewrite <- insertByIndex_perm. now constructor.
Qed.

Lemma Object_keys_perm (o : Obj) : Permutation (List.map fst o) (Object_keys o).
Proof.
  unfold Object_keys. rewrite <- sortByIndex_perm. apply filter_partition_perm.
Qed.

Lemma Object_keys_In (k : JSString) (o : Obj) :
  In k (Object_keys o) <-> In k (List.map fst o).
Proof.
  split; apply Permutation_in;
    [symmetry; apply Object_keys_perm | apply Object_keys_perm].
Qed.

(** *** Spread *)

Lemma get_copy_list (source : Obj) (k : JSString) (ks : list JSString) (target : Obj) :
  get k (fold_left (fun t k' => defineOwn k' (get k' source) t) ks target) =
  if in_dec (list_eq_dec N.eq_dec) k ks then get k source else get k target.
Proof.
  revert target. induction ks as [|k1 ks IH]; intros target; simpl.
  - reflexivity.
  - rewrite IH. destruct (in_dec (list_eq_dec N.eq_dec) k ks) as [Hin|Hn].
    + destruct (list_eq_dec N.eq_dec k1 k); reflexivity.
    + destruct (list_eq_dec N.eq_dec k1 k) as [->|Hne].
      * apply get_defineOwn_same.
      * apply get_defineOwn_other. congruence.
Qed.

Lemma get_copyDataProperties (k : JSString) (target source : Obj) :
  get k (copyDataProperties target source) =
  if hasOwn k source then get k source else get k target.
Proof.
  unfold copyDataProperties. rewrite get_copy_list.
  destruct (in_dec (list_eq_dec N.eq_dec) k (Object_keys source)) as [Hin|Hn];
    destruct (hasOwn k source) eqn:E; try reflexivity.
  - apply Object_keys_In in Hin. apply hasOwn_In in Hin. congruence.
  - apply hasOwn_In in E. apply Object_keys_In in E. contradiction.
Qed.

Lemma get_spread (k : JSString) (a b : Obj) :
  get k (spread a b) = if hasOwn k b then get k b else get k a.
Proof.
  unfold spread. rewrite !get_copyDataProperties. simpl.
  destruct (hasOwn k b); [reflexivity|]. now destruct (hasOwn k a) eqn:E;
    [|symmetry; apply get_not_In; rewrite <- hasOwn_In; congruence].
Qed.

(** ** The scanning loop *)

Lemma matchQuoted_length (q : char) (s body rest : JSString) :
  matchQuoted q s = Some (body, rest) ->
  (List.length rest < List.length s)%nat.
Proof.
  unfold matchQuoted. destruct s as [|c t]; [discriminate|].
  destruct (c =? q)%N; [|discriminate].
  pose proof (dropWhile_length (fun x => negb (x =? q)%N) t) as Hl.
  destruct (dropWhile (fun x => negb (x =? q)%N) t) as [|d r]; [discriminate|].
  intros H. inversion H; subst. simpl in *. lia.
Qed.

Lemma matchBare_length (s tok rest : JSString) :
  matchBare s = Some (tok, rest) ->
  (List.length rest < List.length s)%nat.
Proof.
  unfold matchBare. destruct s as [|c t]; [discriminate|].
  destruct (isBareStart c); [|discriminate].
  intros H. inversion H; subst.
  pose proof (dropWhile_length isBareChar t). simpl. lia.
Qed.

Lemma matchValue_length (s : JSString) (g2 g3 g4 : JSValue) (rest : JSString) :
  matchValue s = Some (g2, g3, g4, rest) ->
  (List.length rest < List.length s)%nat.
Proof.
  unfold matchValue.
  destruct (matchQuoted DQUOTE s) as [[b r]|] eqn:E1.
  { intros H. inversion H; subst. eapply matchQuoted_length; eauto. }
  destruct (matchQuoted SQUOTE s) as [[b r]|] eqn:E2.
  { intros H. inversion H; subst. eapply matchQuoted_length; eauto. }
  destruct (matchBare s) as [[b r]|] eqn:E3; [|discriminate].
  intros H. inversion H; subst. eapply matchBare_length; eauto.
Qed.

Lemma matchAt_length (s : JSString) (m : RegExpMatch) :
  matchAt s = Some m -> (List.length (after m) < List.length s)%nat.
Proof.
  unfold matchAt. intros H.
  pose proof (takeWhile_dropWhile isWordChar s) as Hs.
  destruct (takeWhile isWordChar s) as [|n0 name]; [discriminate|].
  destruct (dropWhile isWordChar s) as [|c t]; [discriminate|].
  destruct (c =? EQUALS)%N; [|discriminate].
  destruct (matchValue t) as [[[[g2 g3] g4] rest]|] eqn:Ev; [|discriminate].
  inversion H; subst m; simpl. apply matchValue_length in Ev.
  rewrite <- Hs. simpl. rewrite length_app. simpl. lia.
Qed.

Lemma exec_length (s : JSString) (m : RegExpMatch) :
  exec s = Some m -> (List.length (after m) < List.length s)%nat.
Proof.
  induction s as [|c s IH]; simpl.
  - discriminate.
  - destruct (matchAt (c :: s)) eqn:E.
    + intros H; inversion H; subst. now apply matchAt_length in E.
    + intros H. apply IH in H. simpl. lia.
Qed.

(** The bound on the iterations is enough: more fuel changes nothing. *)
Lemma parseAttributes_loop_fuel (f1 f2 : nat) (str : JSString) (a : Obj) :
  (List.length str <= f1)%nat -> (List.length str <= f2)%nat ->
  parseAttributes_loop f1 str a = parseAttributes_loop f2 str a.
Proof.
  revert f2 str a. induction f1 as [|f1 IH]; intros f2 str a H1 H2.
  - destruct str; [|simpl in H1; lia]. destruct f2; reflexivity.
  - destruct f2 as [|f2].
    + destruct str; [|simpl in H2; lia]. reflexivity.
    + simpl. destruct (exec str) as [m|] eqn:E; [|reflexivity].
      apply exec_length in E. apply IH; lia.
Qed.

Lemma parseAttributes_loop_enough (fuel : nat) (str : JSString) (a : Obj) :
  (List.length str <= fuel)%nat ->
  parseAttributes_loop fuel str a = parseAttributes_loop (List.length str) str a.
Proof. intros H. apply parseAttributes_loop_fuel; lia. Qed.

Lemma execAll_fuel (f1 f2 : nat) (str : JSString) :
  (List.length str <= f1)%nat -> (List.length str <= f2)%nat ->
  execAll f1 str = execAll f2 str.
Proof.
  revert f2 str. induction f1 as [|f1 IH]; intros f2 str H1 H2.
  - destruct str; [|simpl in H1; lia]. destruct f2; reflexivity.
  - destruct f2 as [|f2].
    + destruct str; [|simpl in H2; lia]. reflexivity.
    + simpl. destruct (exec str) as [m|] eqn:E; [|reflexivity].
      apply exec_length in E. f_equal. apply IH; lia.
Qed.

Lemma parseFrom_none (str : JSString) (a : Obj) :
  exec str = None -> parseFrom str a = a.
Proof.
  unfold parseFrom. intros H. destruct (List.length str); simpl;
    [reflexivity | now rewrite H].
Qed.

Lemma parseFrom_some (str : JSString) (a : Obj) (m : RegExpMatch) :
  exec str = Some m -> parseFrom str a = parseFrom (after m) (store a m).
Proof.
  unfold parseFrom. intros H. pose proof (exec_length _ _ H) as Hl.
  destruct (List.length str) as [|n] eqn:En; [lia|].
  simpl. rewrite H. apply parseAttributes_loop_enough. lia.
Qed.

Lemma matches_none (str : JSString) : exec str = None -> matches str = [].
Proof.
  unfold matches. intros H. destruct (List.length str); simpl;
    [reflexivity | now rewrite H].
Qed.

Lemma matches_some (str : JSString) (m : RegExpMatch) :
  exec str = Some m -> matches str = m :: matches (after m).
Proof.
  unfold matches. intros H. pose proof (exec_length _ _ H) as Hl.
  destruct (List.length str) as [|n] eqn:En; [lia|].
  simpl. rewrite H. f_equal. apply execAll_fuel; lia.
Qed.

Lemma loop_fold (fuel : nat) (str : JSString) (a : Obj) :
  parseAttributes_loop fuel str a = fold_left store (execAll fuel str) a.
Proof.
  revert str a. induction fuel as [|f IH]; intros str a; simpl; [reflexivity|].
  destruct (exec str) as [m|]; [|reflexivity]. simpl. apply IH.
Qed.

Lemma parseFrom_fold (str : JSString) (a : Obj) :
  parseFrom str a = fold_left store (matches str) a.
Proof. apply loop_fold. Qed.

Lemma exec_skip (c : char) (s : JSString) :
  matchAt (c :: s) = None -> exec (c :: s) = exec s.
Proof. intros H. simpl. now rewrite H. Qed.

Lemma matchAt_not_word (c : char) (s : JSString) :
  isWordChar c = false -> matchAt (c :: s) = None.
Proof. intros H. unfold matchAt. simpl. now rewrite H. Qed.

Lemma exec_skip_junk (junk s : JSString) :
  Forall (fun c => isWordChar c = false) junk -> exec (junk ++ s) = exec s.
Proof.
  induction 1 as [|c junk Hc Hj IH]; [reflexivity|].
  simpl app. rewrite exec_skip by now apply matchAt_not_word. exact IH.
Qed.

Lemma matches_exec_eq (s1 s2 : JSString) :
  exec s1 = exec s2 -> matches s1 = matches s2.
Proof.
  intros H. destruct (exec s2) as [m|] eqn:E.
  - rewrite (matches_some _ _ H), (matches_some _ _ E). reflexivity.
  - rewrite (matches_none _ H), (matches_none _ E). reflexivity.
Qed.

(** ** Keyword recognition and dispatch *)

Lemma matchLiteralCI_spec (pat s cap rest : JSString) :
  matchLiteralCI pat s = Some (cap, rest) <->
  s = cap ++ rest /\ toUpperCase cap = pat.
Proof.
  revert s cap rest. induction pat as [|p pat IH]; intros s cap rest; simpl.
  - split.
    + intros H; inversion H; subst. auto.
    + intros [H1 H2]. destruct cap; [|discriminate]. now subst.
  - destruct s as [|c s].
    + split; [discriminate|]. intros [H1 H2].
      destruct cap; [discriminate|]. discriminate.
    + destruct (upper_char c =? p)%N eqn:E.
      * apply N.eqb_eq in E. split.
        -- destruct (matchLiteralCI pat s) as [[cap' rest']|] eqn:Em; [|discriminate].
           intros H; inversion H; subst. apply IH in Em as [-> Hu].
           simpl. split; [reflexivity|]. now rewrite Hu.
        -- intros [H1 H2]. destruct cap as [|c' cap]; [discriminate|].
           simpl in *. injection H1 as Hc Hs. injection H2 as Hu Hp.
           rewrite (proj2 (IH s cap rest) (conj Hs Hp)). now subst c'.
      * apply N.eqb_neq in E. split; [discriminate|]. intros [H1 H2].
        destruct cap as [|c' cap]; [discriminate|]. simpl in *.
        inversion H1; subst. inversion H2. contradiction.
Qed.

Lemma matchAlternatives_keyword (alts : list JSString) (s g1 rest : JSString) :
  matchAlternatives alts s = Some (g1, rest) -> In (toUpperCase g1) alts.
Proof.
  induction alts as [|a alts IH]; simpl; [discriminate|].
  destruct (matchLiteralCI a s) as [[cap r]|] eqn:E.
  - destruct (matchSpaces r) as [r'|].
    + intros H; inversion H; subst. apply matchLiteralCI_spec in E.
      left. symmetry. apply E.
    + intros H. right. now apply IH.
  - intros H. right. now apply IH.
Qed.

Lemma commandMatch_resolve (commandString g1 remainder : JSString) :
  commandMatch (trim commandString) = Some (g1, remainder) ->
  exists k, toUpperCase g1 = keyword k /\ resolve commandString = Some (k, remainder).
Proof.
  intros H. unfold resolve. rewrite H.
  apply matchAlternatives_keyword in H. simpl in H.
  destruct H as [H|[H|[H|[H|[H|[]]]]]]; rewrite <- H;
    [exists ADD | exists REMOVE | exists MOVE | exists RENAME | exists SET];
    split; reflexivity.
Qed.

Lemma parse_resolved (commandString : JSString) (k : Kind) (remainder : JSString) :
  resolve commandString = Some (k, remainder) ->
  parseLarkTreeCommand commandString = parseKind k remainder.
Proof.
  unfold resolve, parseLarkTreeCommand.
  destruct (commandMatch (trim commandString)) as [[g1 r]|]; [|discriminate].
  cbv zeta.
  destruct (JS.eqb (toUpperCase g1) (js "ADD")) eqn:E1.
  { intros H; inversion H; subst. apply eqb_eq in E1. now rewrite E1. }
  destruct (JS.eqb (toUpperCase g1) (js "REMOVE")) eqn:E2.
  { intros H; inversion H; subst. apply eqb_eq in E2. now rewrite E2. }
  destruct (JS.eqb (toUpperCase g1) (js "MOVE")) eqn:E3.
  { intros H; inversion H; subst. apply eqb_eq in E3. now rewrite E3. }
  destruct (JS.eqb (toUpperCase g1) (js "RENAME")) eqn:E4.
  { intros H; inversion H; subst. apply eqb_eq in E4. now rewrite E4. }
  destruct (JS.eqb (toUpperCase g1) (js "SET")) eqn:E5.
  { intros H; inversion H; subst. apply eqb_eq in E5. now rewrite E5. }
  discriminate.
Qed.

Lemma parse_unresolved (commandString : JSString) :
  resolve commandString = None ->
  parseLarkTreeCommand commandString = inl InvalidCommandFormat.
Proof.
  unfold resolve, parseLarkTreeCommand.
  destruct (commandMatch (trim commandString)) as [[g1 r]|] eqn:E; [|reflexivity].
  destruct (commandMatch_resolve _ _ _ E) as [k [Hk Hr]].
  unfold resolve in Hr. rewrite E in Hr. cbv zeta in *. intros H. congruence.
Qed.

(** ** Escapes in quoted values *)

(** A double-quoted capture never holds a double quote, whatever the text. *)
Lemma matchQuoted_body (q : char) (s body rest : JSString) :
  matchQuoted q s = Some (body, rest) -> ~ In q body.
Proof.
  unfold matchQuoted. destruct s as [|c t]; [discriminate|].
  destruct (c =? q)%N; [|discriminate].
  destruct (dropWhile (fun x => negb (x =? q)%N) t); [discriminate|].
  intros H. inversion H; subst. intros Hin.
  pose proof (takeWhile_all (fun x => negb (x =? q)%N) t) as Ha.
  rewrite Forall_forall in Ha. specialize (Ha q Hin).
  now rewrite N.eqb_refl in Ha.
Qed.

(** C1.  On the escape example the tokenizer does not yield the five characters
    a, double quote, b, newline, c: the double-quoted alternative of the
    pattern stops at the first double quote, escaped or not, so the value is
    the two characters a, backslash, and the rest of the text holds no further
    match.  Between single quotes the same content is unescaped to the five
    characters. *)
Theorem escaped_double_quote_ends_value :
  parseAttributes escapeSample = [(js "label", Str (js "a" ++ [BACKSLASH]))]
  /\ get (js "label") (parseAttributes escapeSample)
     <> Str (js "a" ++ [DQUOTE] ++ js "b" ++ [NEWLINE] ++ js "c")
  /\ parseAttributes escapeSampleSingle
     = [(js "label", Str (js "a" ++ [DQUOTE] ++ js "b" ++ [NEWLINE] ++ js "c"))].
Proof.
  split; [vm_compute; reflexivity|].
  split; [vm_compute; discriminate|].
  vm_compute; reflexivity.
Qed.

(** ** Valid commands *)

(** C2.  The five minimal commands parse and give the id x, and every string
    of the built-in suite parses, so the loop of the self-consistency check
    collects no issue.  Yet the check reports nothing: its text lies in the
    plain string of the template, where the braces stay doubled, so neither
    its return type nor the operand of its return statement opens as an
    object, and the emitted function is malformed.  The return type of
    parseAttributes, written the same way inside the f-string, is emitted
    with single braces and does open as one. *)
Theorem suite_parses_but_check_is_malformed :
  parsesWithId (js "ADD id=x") (js "x")
  /\ parsesWithId (js "REMOVE id=x") (js "x")
  /\ parsesWithId (js "MOVE id=x parent=y") (js "x")
  /\ parsesWithId (js "RENAME id=x label=" ++ quoted (js "y")) (js "x")
  /\ parsesWithId (js "SET id=x value=y") (js "x")
  /\ Forall parses testCases
  /\ collectedIssues = []
  /\ emitted FString attributesType = js "{ [key: string]: string }"
  /\ opensObject (emitted FString attributesType) = true
  /\ opensObject (emitted PlainString consistencyType) = false
  /\ opensObject (emitted PlainString consistencyValue) = false
  /\ validateLarkParserConsistency = None.
Proof.
  unfold parsesWithId, parses.
  repeat split; try (eexists; split; vm_compute; reflexivity).
  - repeat constructor; eexists; vm_compute; reflexivity.
Qed.

(** ** The id= prefix *)

(** C6.  Whatever the kind, when the text after the keyword and its white
    space does not start with id=, parsing fails with the must-start-with-id
    error of that kind; the attributes are not looked at, so an id attribute
    later in the line changes nothing. *)
Theorem missing_id_prefix_rejected_first
  (commandString : JSString) (k : Kind) (remainder : JSString) :
  resolve commandString = Some (k, remainder) ->
  startsWith remainder ID_PREFIX = false ->
  parseLarkTreeCommand commandString = inl (MustStartWithId k).
Proof.
  intros Hr Hp. rewrite (parse_resolved _ _ _ Hr).
  destruct k; simpl;
    unfold parseAddCommand, parseRemoveCommand, parseMoveCommand,
      parseRenameCommand, parseSetCommand; now rewrite Hp.
Qed.

Lemma missing_id_prefix_rejected_first_witness :
  resolve (js "ADD label=x id=y") = Some (ADD, js "label=x id=y")
  /\ get ID (parseAttributes (js "label=x id=y")) = Str (js "y")
  /\ parseLarkTreeCommand (js "ADD label=x id=y") = inl (MustStartWithId ADD).
Proof.
  split; [reflexivity|]. split; [reflexivity|].
  apply (@missing_id_prefix_rejected_first
           (js "ADD label=x id=y") ADD (js "label=x id=y"));
    reflexivity.
Defined.

(** ** The id of a parsed command *)

Lemma spread_id (type : JSString) (attributes : Obj) :
  truthy (get ID attributes) = true ->
  exists c v, get ID (spread (initialResult type) attributes) = Str (c :: v).
Proof.
  intros H. rewrite get_spread.
  pose proof (truthy_get_In _ _ H) as Hin. apply hasOwn_In in Hin.
  rewrite Hin. destruct (get ID attributes) as [|[|c v]]; try discriminate.
  now exists c, v.
Qed.

Lemma parseKind_id (k : Kind) (remainder : JSString) (r : Obj) :
  parseKind k remainder = inr r ->
  truthy (get ID (parseAttributes remainder)) = true
  /\ r = spread (initialResult (keyword k)) (parseAttributes remainder).
Proof.
  destruct k; simpl;
    unfold parseAddCommand, parseRemoveCommand, parseMoveCommand,
      parseRenameCommand, parseSetCommand; cbv zeta;
    destruct (startsWith remainder ID_PREFIX); simpl; try discriminate;
    destruct (truthy (get ID (parseAttributes remainder))); simpl;
      try discriminate.
  - intros H; inversion H; auto.
  - destruct (Nat.ltb 0 _); [discriminate|]. intros H; inversion H; auto.
  - destruct (truthy (get (js "parent") _)); simpl; [|discriminate].
    intros H; inversion H; auto.
  - destruct (truthy (get (js "label") _)); simpl; [|discriminate].
    intros H; inversion H; auto.
  - destruct (Nat.eqb _ 0); [discriminate|]. intros H; inversion H; auto.
Qed.

(** C7.  Whenever parsing succeeds, the id field of the result is present and
    is a non-empty string. *)
Theorem parsed_id_present_nonempty (commandString : JSString) (r : Obj) :
  parseLarkTreeCommand commandString = inr r ->
  exists v, get ID r = Str v /\ v <> [].
Proof.
  intros H. destruct (resolve commandString) as [[k remainder]|] eqn:Hr.
  - rewrite (parse_resolved _ _ _ Hr) in H. apply parseKind_id in H as [Ht ->].
    destruct (spread_id (keyword k) _ Ht) as [c [v Hv]].
    exists (c :: v). split; [assumption | discriminate].
  - rewrite (parse_unresolved _ Hr) in H. discriminate.
Qed.

Lemma parsed_id_present_nonempty_witness :
  exists v,
    get ID (spread (initialResult (js "ADD")) (parseAttributes (js "id=x")))
    = Str v /\ v <> [].
Proof.
  apply (@parsed_id_present_nonempty (js "ADD id=x")). reflexivity.
Defined.

(** ** Keywords without white space *)

Lemma matchSpaces_noSpaceAhead (rest : JSString) :
  noSpaceAhead rest -> matchSpaces rest = None.
Proof.
  unfold noSpaceAhead, matchSpaces. intros H. destruct rest as [|c t];
    [reflexivity|]. now rewrite (H c t eq_refl).
Qed.

Ltac known_length l H :=
  repeat (destruct l as [|? l]; simpl in H; try discriminate H;
          try (injection H as ? H)).

Lemma alternative_fails (a kw rest : JSString) (k : Kind) :
  toUpperCase kw = keyword k -> noSpaceAhead rest ->
  In a [keyword ADD; keyword REMOVE; keyword MOVE; keyword RENAME; keyword SET] ->
  match matchLiteralCI a (kw ++ rest) with
  | Some (_, r) => matchSpaces r
  | None => None
  end = None.
Proof.
  intros Hk Hn Ha.
  destruct (matchLiteralCI a (kw ++ rest)) as [[cap r]|] eqn:E; [|reflexivity].
  apply matchLiteralCI_spec in E as [Hs Hc].
  unfold toUpperCase in *.
  simpl in Ha. destruct Ha as [Ha|[Ha|[Ha|[Ha|[Ha|[]]]]]]; subst a;
    destruct k; vm_compute in Hk; vm_compute in Hc;
    known_length kw Hk; known_length cap Hc;
    simpl in Hs; inversion Hs; subst;
    try congruence; now apply matchSpaces_noSpaceAhead.
Qed.

Lemma commandMatch_no_space (kw rest : JSString) (k : Kind) :
  toUpperCase kw = keyword k -> noSpaceAhead rest ->
  commandMatch (kw ++ rest) = None.
Proof.
  intros Hk Hn. unfold commandMatch.
  assert (H : forall alts,
             incl alts [keyword ADD; keyword REMOVE; keyword MOVE;
                        keyword RENAME; keyword SET] ->
             matchAlternatives alts (kw ++ rest) = None).
  { induction alts as [|a alts IH]; intros Hi; simpl; [reflexivity|].
    pose proof (@alternative_fails a kw rest k Hk Hn (Hi a (or_introl eq_refl))) as Hf.
    destruct (matchLiteralCI a (kw ++ rest)) as [[cap r]|].
    - rewrite Hf. apply IH. intros x Hx. apply Hi. now right.
    - apply IH. intros x Hx. apply Hi. now right. }
  apply H. apply incl_refl.
Qed.

(** C10.  When the trimmed input is one of the five keywords, in any letter
    case, with no white space character right after it (nothing, or any other
    character), parsing fails with the invalid-command-format error, the one
    of an unknown keyword, and not with a must-start-with-id error. *)
Theorem keyword_without_space_is_invalid_format
  (commandString kw rest : JSString) (k : Kind) :
  trim commandString = kw ++ rest ->
  toUpperCase kw = keyword k ->
  noSpaceAhead rest ->
  parseLarkTreeCommand commandString = inl InvalidCommandFormat
  /\ parseLarkTreeCommand (js "FOO id=x") = inl InvalidCommandFormat
  /\ forall k', parseLarkTreeCommand commandString <> inl (MustStartWithId k').
Proof.
  intros Ht Hk Hn.
  assert (H : parseLarkTreeCommand commandString = inl InvalidCommandFormat).
  { unfold parseLarkTreeCommand. cbv zeta. rewrite Ht.
    now rewrite (@commandMatch_no_space kw rest k Hk Hn). }
  split; [exact H|]. split; [reflexivity|].
  intros k'. rewrite H. discriminate.
Qed.

Lemma keyword_without_space_is_invalid_format_witness :
  parseLarkTreeCommand (js "ADD") = inl InvalidCommandFormat
  /\ parseLarkTreeCommand (js "ADDid=x") = inl InvalidCommandFormat.
Proof.
  split.
  - apply (@keyword_without_space_is_invalid_format (js "ADD") (js "ADD") [] ADD);
      [reflexivity | reflexivity | intros c t H; discriminate H].
  - apply (@keyword_without_space_is_invalid_format
             (js "ADDid=x") (js "ADD") (js "id=x") ADD);
      [reflexivity | reflexivity |].
    intros c t H. injection H as <- _. reflexivity.
Defined.

(** ** The tokenizer is total and lenient *)

Lemma matchAt_exec (s : JSString) (m : RegExpMatch) :
  matchAt s = Some m -> exec s = Some m.
Proof.
  destruct s as [|c s]; [discriminate|]. intros H. simpl exec. now rewrite H.
Qed.

Lemma parseAttributes_fold (str : JSString) :
  parseAttributes str = fold_left store (matches str) [].
Proof. apply (parseFrom_fold str []). Qed.

(** C8.  The tokenizer is a function defined on every text: its loop ends
    within the bound given by the length of the text, whatever the text.  Its
    result is the matches stored from left to right and nothing else: a
    position at which the pattern does not match is passed over, text without
    word characters before a match or before the rest of the text is ignored,
    scanning resumes right after each match, and a text with no match gives
    the empty mapping. *)
Theorem tokenizer_total_and_lenient (junk str : JSString) :
  Forall (fun c => isWordChar c = false) junk ->
  (forall fuel, (List.length str <= fuel)%nat ->
     parseAttributes_loop fuel str [] = parseAttributes str)
  /\ parseAttributes str = fold_left store (matches str) []
  /\ (matches str = [] -> parseAttributes str = [])
  /\ (forall c, matchAt (c :: str) = None ->
        parseAttributes (c :: str) = parseAttributes str)
  /\ parseAttributes (junk ++ str) = parseAttributes str
  /\ parseAttributes junk = []
  /\ (forall m, matchAt str = Some m ->
        matches (junk ++ str) = m :: matches (after m)
        /\ parseAttributes (junk ++ str) = parseFrom (after m) (store [] m)).
Proof.
  intros Hj.
  assert (Hskip : matches (junk ++ str) = matches str)
    by (apply matches_exec_eq, exec_skip_junk, Hj).
  repeat split.
  - intros fuel Hf. now apply parseAttributes_loop_enough.
  - apply parseAttributes_fold.
  - intros H. now rewrite parseAttributes_fold, H.
  - intros c H. rewrite !parseAttributes_fold.
    now rewrite (matches_exec_eq (c :: str) str (exec_skip c str H)).
  - now rewrite !parseAttributes_fold, Hskip.
  - rewrite parseAttributes_fold.
    rewrite <- (app_nil_r junk).
    rewrite (matches_exec_eq (junk ++ []) [] (exec_skip_junk junk [] Hj)).
    reflexivity.
  - rewrite Hskip. now apply matches_some, matchAt_exec.
  - unfold parseAttributes. fold (parseFrom (junk ++ str) []).
    apply parseFrom_some. rewrite (exec_skip_junk junk str Hj).
    now apply matchAt_exec.
Qed.

Lemma tokenizer_total_and_lenient_witness :
  parseAttributes (js " ,; " ++ js "id=x ?? b=y !") = parseAttributes (js "id=x ?? b=y !")
  /\ parseAttributes (js " ,; ") = [].
Proof.
  assert (Hj : Forall (fun c => isWordChar c = false) (js " ,; "))
    by (repeat constructor).
  split;
    apply (@tokenizer_total_and_lenient (js " ,; ") (js "id=x ?? b=y !") Hj).
Defined.

(** ** What the tokenizer stores *)

Lemma exec_matchAt (s : JSString) (m : RegExpMatch) :
  exec s = Some m -> exists s', matchAt s' = Some m.
Proof.
  induction s as [|c s IH]; simpl; [discriminate|].
  destruct (matchAt (c :: s)) as [m'|] eqn:E.
  - intros H; inversion H; subst. now exists (c :: s).
  - exact IH.
Qed.

Lemma execAll_matchAt (fuel : nat) (s : JSString) :
  Forall (fun m => exists s', matchAt s' = Some m) (execAll fuel s).
Proof.
  revert s. induction fuel as [|f IH]; intros s; simpl; [constructor|].
  destruct (exec s) as [m|] eqn:E; [|constructor].
  constructor; [eapply exec_matchAt; eauto | apply IH].
Qed.

Lemma matches_matchAt (s : JSString) :
  Forall (fun m => exists s', matchAt s' = Some m) (matches s).
Proof. apply execAll_matchAt. Qed.

Lemma replaceAll2_nonempty (a b r : char) (s : JSString) :
  s <> [] -> replaceAll2 a b r s <> [].
Proof.
  destruct s as [|x [|y t]]; simpl; try congruence.
  intros _. destruct ((x =? a)%N && (y =? b)%N); discriminate.
Qed.

Lemma unescape_nonempty (s : JSString) : s <> [] -> unescape s <> [].
Proof. intros H. unfold unescape. now repeat apply replaceAll2_nonempty. Qed.

Lemma matchAt_group4 (s : JSString) (m : RegExpMatch) :
  matchAt s = Some m -> properValue (group4 m).
Proof.
  unfold matchAt.
  destruct (takeWhile isWordChar s) as [|n0 name]; [discriminate|].
  destruct (dropWhile isWordChar s) as [|c t]; [discriminate|].
  destruct (c =? EQUALS)%N; [|discriminate].
  unfold matchValue.
  destruct (matchQuoted DQUOTE t) as [[b r]|].
  { intros H; inversion H; subst; simpl. now left. }
  destruct (matchQuoted SQUOTE t) as [[b r]|].
  { intros H; inversion H; subst; simpl. now left. }
  unfold matchBare. destruct t as [|d t']; [discriminate|].
  destruct (isBareStart d); [|discriminate].
  intros H; inversion H; subst; simpl. right. eauto.
Qed.

Lemma matchValueOf_proper (s : JSString) (m : RegExpMatch) :
  matchAt s = Some m -> properValue (matchValueOf m).
Proof.
  intros H. apply matchAt_group4 in H. unfold matchValueOf.
  destruct (truthy (or_else (group2 m) (group3 m))) eqn:Eq.
  - unfold or_else at 1. rewrite Eq.
    destruct (or_else (group2 m) (group3 m)) as [|[|c t]]; try discriminate.
    simpl. right.
    destruct (unescape (c :: t)) as [|c' t'] eqn:Eu; [|eauto].
    exfalso. revert Eu. apply unescape_nonempty. discriminate.
  - unfold or_else at 1. rewrite Eq. exact H.
Qed.

Lemma get_proper_defineOwn (k : JSString) (v : JSValue) (o : Obj) :
  properValue v -> (forall k', properValue (get k' o)) ->
  forall k', properValue (get k' (defineOwn k v o)).
Proof.
  intros Hv Ho k'. destruct (list_eq_dec N.eq_dec k' k) as [->|Hne].
  - now rewrite get_defineOwn_same.
  - now rewrite get_defineOwn_other.
Qed.

Lemma store_proper (ms : list RegExpMatch) (a : Obj) :
  Forall (fun m => exists s', matchAt s' = Some m) ms ->
  (forall k, properValue (get k a)) ->
  forall k, properValue (get k (fold_left store ms a)).
Proof.
  intros Hms. revert a. induction Hms as [|m ms [s' Hm] _ IH]; intros a Ha;
    simpl; [exact Ha|].
  apply IH. unfold store, assign.
  destruct (JS.eqb (matchKey m) PROTO); [exact Ha|].
  apply get_proper_defineOwn; [|exact Ha]. eapply matchValueOf_proper; eauto.
Qed.

(** Every value of the mapping is [undefined] (an empty quoted value) or a
    non-empty string. *)
Lemma parseAttributes_proper (str k : JSString) :
  properValue (get k (parseAttributes str)).
Proof.
  rewrite parseAttributes_fold. apply store_proper.
  - apply matches_matchAt.
  - intros k'. now left.
Qed.

Lemma parseAttributes_truthy (str k : JSString) :
  truthy (get k (parseAttributes str)) = false
  <-> get k (parseAttributes str) = undefined.
Proof.
  destruct (parseAttributes_proper str k) as [H|[c [t H]]]; rewrite H; simpl;
    split; congruence.
Qed.

(** ** Required attributes *)

Lemma parseKind_missing (k : Kind) (remainder : JSString) :
  startsWith remainder ID_PREFIX = true ->
  (parseKind k remainder = inl (MustHave k)
   <-> existsb (fun a => negb (truthy (get a (parseAttributes remainder))))
         (required k) = true).
Proof.
  intros Hp.
  destruct k; simpl;
    unfold parseAddCommand, parseRemoveCommand, parseMoveCommand,
      parseRenameCommand, parseSetCommand; cbv zeta; rewrite Hp; simpl;
    destruct (truthy (get ID (parseAttributes remainder))); simpl;
    try (split; congruence).
  - destruct (Nat.ltb 0 _); split; congruence.
  - destruct (truthy (get (js "parent") _)); simpl; split; congruence.
  - destruct (truthy (get (js "label") _)); simpl; split; congruence.
  - destruct (Nat.eqb _ 0); split; congruence.
Qed.

(** C3, as the code has it.  Once the keyword and the id= prefix are accepted,
    parsing fails with the must-have error of the kind exactly when some
    required attribute of the kind has no value in the mapping, that is, when
    it is absent or was given as an empty quoted string (which the tokenizer
    stores as undefined).  The message of that error names the required
    attributes of the kind.  MOVE id=x fails so, its message naming parent. *)
Theorem missing_required_iff_no_value
  (commandString : JSString) (k : Kind) (remainder : JSString) :
  resolve commandString = Some (k, remainder) ->
  startsWith remainder ID_PREFIX = true ->
  (parseLarkTreeCommand commandString = inl (MustHave k)
   <-> exists a, In a (required k)
                 /\ get a (parseAttributes remainder) = undefined)
  /\ forallb (includes (message (MustHave k))) (required k) = true
  /\ parseLarkTreeCommand (js "MOVE id=x") = inl (MustHave MOVE)
  /\ includes (message (MustHave MOVE)) (js "parent") = true.
Proof.
  intros Hr Hp. rewrite (parse_resolved _ _ _ Hr).
  split; [|split; [destruct k; reflexivity | split; reflexivity]].
  rewrite (parseKind_missing k remainder Hp), existsb_exists.
  split; intros [a [Ha Hv]]; exists a; split; try assumption.
  - apply parseAttributes_truthy. now destruct (truthy _).
  - apply parseAttributes_truthy in Hv. now rewrite Hv.
Qed.

Lemma missing_required_iff_no_value_witness :
  parseLarkTreeCommand (js "RENAME id=x") = inl (MustHave RENAME)
  <-> exists a, In a (required RENAME)
                /\ get a (parseAttributes (js "id=x")) = undefined.
Proof.
  apply (missing_required_iff_no_value (js "RENAME id=x") RENAME (js "id=x"));
    reflexivity.
Defined.

(** C3 as stated fails on MOVE id=x parent= followed by an empty pair of
    double quotes: both checks pass and both required names are names of the
    mapping, yet parsing fails with the must-have error. *)
Lemma move_with_empty_parent_counterexample :
  let remainder := js "id=x parent=" ++ quoted [] in
  let commandString := js "MOVE " ++ remainder in
  resolve commandString = Some (MOVE, remainder)
  /\ startsWith remainder ID_PREFIX = true
  /\ ~ (parseLarkTreeCommand commandString = inl (MustHave MOVE)
        <-> exists a, In a (required MOVE)
                      /\ hasOwn a (parseAttributes remainder) = false).
Proof.
  cbv zeta. split; [reflexivity|]. split; [reflexivity|].
  intros [H _]. destruct (H eq_refl) as [a [Ha Hn]].
  simpl in Ha. destruct Ha as [<-|[<-|[]]]; vm_compute in Hn; discriminate.
Qed.

(** ** SET needs an attribute besides id *)

Lemma extraAttrs_nil (attributes : Obj) :
  extraAttrs attributes = [] <-> onlyId attributes.
Proof.
  unfold extraAttrs, onlyId. rewrite filter_nil_iff. split.
  - intros H k Hk. apply hasOwn_In, Object_keys_In in Hk.
    specialize (H k Hk). apply negb_false_iff in H. now apply eqb_eq.
  - intros H k Hk. apply Object_keys_In, hasOwn_In in Hk.
    rewrite (H k Hk). reflexivity.
Qed.

(** C5, as the code has it.  For a SET command whose keyword and id= prefix
    are accepted, parsing fails with the nothing-to-set error exactly when the
    mapping gives id a non-empty value and has no other attribute; when it
    gives id a non-empty value and has another attribute, parsing succeeds. *)
Theorem set_fails_iff_only_id
  (commandString remainder : JSString) :
  resolve commandString = Some (SET, remainder) ->
  startsWith remainder ID_PREFIX = true ->
  (parseLarkTreeCommand commandString = inl NothingToSet
   <-> truthy (get ID (parseAttributes remainder)) = true
       /\ onlyId (parseAttributes remainder))
  /\ (truthy (get ID (parseAttributes remainder)) = true ->
      ~ onlyId (parseAttributes remainder) ->
      parseLarkTreeCommand commandString
      = inr (spread (initialResult (keyword SET)) (parseAttributes remainder))).
Proof.
  intros Hr Hp. rewrite (parse_resolved _ _ _ Hr). simpl.
  unfold parseSetCommand. cbv zeta. rewrite Hp. simpl.
  rewrite <- extraAttrs_nil.
  destruct (truthy (get ID (parseAttributes remainder))); simpl.
  - destruct (Nat.eqb (List.length (extraAttrs (parseAttributes remainder))) 0)
      eqn:E.
    + apply length_zero_nil in E. split; [tauto | intros _ H; contradiction].
    + split; [|reflexivity]. split; [discriminate|].
      intros [_ H]. apply length_zero_nil in H. congruence.
  - split; [|discriminate]. split; [discriminate | intros [H _]; discriminate].
Qed.

Lemma set_fails_iff_only_id_witness :
  parseLarkTreeCommand (js "SET id=x") = inl NothingToSet
  <-> truthy (get ID (parseAttributes (js "id=x"))) = true
      /\ onlyId (parseAttributes (js "id=x")).
Proof.
  apply (set_fails_iff_only_id (js "SET id=x") (js "id=x")); reflexivity.
Defined.

(** C5 as stated fails on SET id= followed by an empty pair of double quotes:
    both checks pass, the mapping has the name id and no other, and parsing
    fails with the must-have-id error, not with the nothing-to-set error. *)
Lemma set_with_empty_id_counterexample :
  let remainder := js "id=" ++ quoted [] in
  let commandString := js "SET " ++ remainder in
  resolve commandString = Some (SET, remainder)
  /\ startsWith remainder ID_PREFIX = true
  /\ parseLarkTreeCommand commandString = inl (MustHave SET)
  /\ ~ (parseLarkTreeCommand commandString = inl NothingToSet
        <-> hasOwn ID (parseAttributes remainder) = true
            /\ onlyId (parseAttributes remainder)).
Proof.
  cbv zeta. split; [reflexivity|]. split; [reflexivity|]. split; [reflexivity|].
  intros [_ H]. assert (Hf : parseLarkTreeCommand (js "SET " ++ js "id=" ++ quoted [])
                             = inl NothingToSet).
  { apply H. split; [reflexivity|].
    assert (E : parseAttributes (js "id=" ++ quoted []) = [(ID, undefined)])
      by reflexivity.
    rewrite E. intros k Hk. simpl in Hk. rewrite orb_false_r in Hk.
    now apply eqb_eq in Hk. }
  vm_compute in Hf. discriminate.
Qed.

(** ** The names of the mapping and their order *)

Lemma hasOwn_existsb (k : JSString) (o : Obj) :
  hasOwn k o = existsb (JS.eqb k) (List.map fst o).
Proof.
  induction o as [|[k' v'] o IH]; simpl; [reflexivity|]. now rewrite IH.
Qed.

Lemma keys_fold_store (ms : list RegExpMatch) (a : Obj) :
  List.map fst (fold_left store ms a) =
  List.map fst a
  ++ firstOccurrences (List.map fst a) (filter notProto (List.map matchKey ms)).
Proof.
  revert a. induction ms as [|m ms IH]; intros a; simpl.
  - now rewrite app_nil_r.
  - rewrite IH. clear IH. unfold store, assign.
    change (notProto (matchKey m)) with (negb (JS.eqb (matchKey m) PROTO)).
    destruct (JS.eqb (matchKey m) PROTO); simpl; [reflexivity|].
    rewrite keys_defineOwn, <- hasOwn_existsb.
    destruct (hasOwn (matchKey m) a) eqn:E; [reflexivity|].
    now rewrite <- app_assoc.
Qed.

(** The names of the mapping, in creation order, are the names in the order
    of their first occurrence. *)
Lemma parseAttributes_keys (str : JSString) :
  List.map fst (parseAttributes str) = encountered str.
Proof. rewrite parseAttributes_fold. apply keys_fold_store. Qed.

Lemma insertByIndex_sorted (k : JSString) (l : list JSString) :
  StronglySorted indexLe l -> StronglySorted indexLe (insertByIndex k l).
Proof.
  induction 1 as [|k' l Hs IH Hf]; simpl.
  - repeat constructor.
  - destruct (N.leb_spec (indexOf k) (indexOf k')) as [Hle|Hgt].
    + constructor; [now constructor|]. constructor; [exact Hle|].
      eapply Forall_impl; [|exact Hf]. unfold indexLe. intros x Hx. lia.
    + constructor; [exact IH|].
      apply (Permutation_Forall (insertByIndex_perm k l)).
      constructor; [unfold indexLe; lia | exact Hf].
Qed.

Lemma sortByIndex_sorted (l : list JSString) :
  StronglySorted indexLe (sortByIndex l).
Proof.
  induction l as [|k l IH]; simpl; [constructor|]. now apply insertByIndex_sorted.
Qed.

Lemma sortByIndex_of_sorted (l : list JSString) :
  StronglySorted indexLe l -> sortByIndex l = l.
Proof.
  induction 1 as [|k l Hs IH Hf]; simpl; [reflexivity|]. rewrite IH.
  destruct l as [|k' l']; [reflexivity|]. simpl.
  inversion Hf as [|? ? Hk _]; subst. unfold indexLe in Hk.
  apply N.leb_le in Hk. now rewrite Hk.
Qed.

Lemma sortByIndex_Forall (P : JSString -> Prop) (l : list JSString) :
  Forall P l -> Forall P (sortByIndex l).
Proof. apply Permutation_Forall, sortByIndex_perm. Qed.

(** The extra names of a mapping: the array indices among its names, sorted,
    then its other names except id, in creation order. *)
Lemma extraAttrs_order (attributes : Obj) :
  extraAttrs attributes =
  sortByIndex (filter isArrayIndex (List.map fst attributes))
  ++ filter (fun k => negb (isArrayIndex k) && negb (JS.eqb k ID))
       (List.map fst attributes).
Proof.
  unfold extraAttrs, Object_keys. rewrite filter_app, filter_filter. f_equal.
  apply filter_all, sortByIndex_Forall.
  eapply Forall_impl; [|apply filter_Forall]. simpl. intros k Hk.
  destruct (JS.eqb k ID) eqn:E; [|reflexivity].
  apply eqb_eq in E. subst k. discriminate Hk.
Qed.

(** C4, as the code has it.  For a REMOVE command whose keyword and id= prefix
    are accepted and whose mapping gives id a non-empty value: when the
    mapping has an attribute other than id, parsing fails with the
    should-only-have-id error, which lists the offending names in the order
    of Object.keys, that is, the names that are array indices in ascending
    numeric order and then the other names in the order in which they were
    first encountered (so, in encountered order when no name is an array
    index); when the mapping has id only, parsing succeeds. *)
Theorem remove_lists_extras_in_key_order
  (commandString remainder : JSString) :
  resolve commandString = Some (REMOVE, remainder) ->
  startsWith remainder ID_PREFIX = true ->
  truthy (get ID (parseAttributes remainder)) = true ->
  (~ onlyId (parseAttributes remainder) ->
   parseLarkTreeCommand commandString
   = inl (ShouldOnlyHaveId (extraAttrs (parseAttributes remainder))))
  /\ (onlyId (parseAttributes remainder) ->
      parseLarkTreeCommand commandString
      = inr (spread (initialResult (keyword REMOVE))
               (parseAttributes remainder)))
  /\ extraAttrs (parseAttributes remainder)
     = sortByIndex (filter isArrayIndex (encountered remainder))
       ++ filter (fun k => negb (isArrayIndex k) && negb (JS.eqb k ID))
            (encountered remainder)
  /\ StronglySorted indexLe
       (sortByIndex (filter isArrayIndex (encountered remainder)))
  /\ (Forall (fun k => isArrayIndex k = false) (encountered remainder) ->
      extraAttrs (parseAttributes remainder)
      = filter (fun k => negb (JS.eqb k ID)) (encountered remainder)).
Proof.
  intros Hr Hp Hid. rewrite (parse_resolved _ _ _ Hr). simpl.
  unfold parseRemoveCommand. cbv zeta. rewrite Hp, Hid. simpl.
  rewrite <- extraAttrs_nil.
  repeat split.
  - intros Hn. destruct (extraAttrs (parseAttributes remainder)); [congruence|].
    reflexivity.
  - intros ->. reflexivity.
  - rewrite extraAttrs_order, parseAttributes_keys. reflexivity.
  - apply sortByIndex_sorted.
  - intros Hf. rewrite extraAttrs_order, parseAttributes_keys.
    rewrite (filter_none _ isArrayIndex _ Hf). simpl.
    apply filter_ext_in. intros k Hk.
    rewrite Forall_forall in Hf. now rewrite (Hf k Hk).
Qed.

Lemma remove_lists_extras_in_key_order_witness :
  parseLarkTreeCommand (js "REMOVE id=x label=" ++ quoted (js "y"))
  = inl (ShouldOnlyHaveId [js "label"])
  /\ parseLarkTreeCommand (js "REMOVE id=x")
     = inr [(js "type", Str (js "REMOVE")); (ID, Str (js "x"))].
Proof.
  split.
  - apply (remove_lists_extras_in_key_order
             (js "REMOVE id=x label=" ++ quoted (js "y"))
             (js "id=x label=" ++ quoted (js "y")));
      [reflexivity | reflexivity | reflexivity |].
    intros H. specialize (H (js "label") eq_refl). discriminate H.
  - apply (remove_lists_extras_in_key_order (js "REMOVE id=x") (js "id=x"));
      [reflexivity | reflexivity | reflexivity |].
    intros k Hk. simpl in Hk. rewrite orb_false_r in Hk. now apply eqb_eq in Hk.
Defined.

(** C4 as stated fails on REMOVE id=x b=y 1=z: the scan meets b before 1, and
    the error lists 1 before b. *)
Lemma remove_extras_order_counterexample :
  let remainder := js "id=x b=y 1=z" in
  let commandString := js "REMOVE " ++ remainder in
  resolve commandString = Some (REMOVE, remainder)
  /\ List.map matchKey (matches remainder) = [js "id"; js "b"; js "1"]
  /\ parseLarkTreeCommand commandString
     = inl (ShouldOnlyHaveId [js "1"; js "b"])
  /\ parseLarkTreeCommand commandString
     <> inl (ShouldOnlyHaveId [js "b"; js "1"]).
Proof.
  cbv zeta. repeat split; try reflexivity. vm_compute. discriminate.
Qed.

(** ** Tokenizing a serialised mapping *)

Lemma lower_char_word (c : char) :
  isWordChar c = true ->
  isWordChar (lower_char c) = true /\ lower_char (lower_char c) = lower_char c.
Proof. intros H. split; char_cases. Qed.

Lemma toLowerCase_word (s : JSString) :
  Forall (fun c => isWordChar c = true) s ->
  Forall (fun c => isWordChar c = true) (toLowerCase s)
  /\ toLowerCase (toLowerCase s) = toLowerCase s.
Proof.
  induction 1 as [|c s Hc Hs [IH1 IH2]]; simpl; [split; constructor|].
  destruct (lower_char_word c Hc) as [H1 H2]. split.
  - now constructor.
  - now rewrite H2, IH2.
Qed.

Lemma matchAt_name (s : JSString) (m : RegExpMatch) :
  matchAt s = Some m ->
  group1 m <> [] /\ Forall (fun c => isWordChar c = true) (group1 m).
Proof.
  unfold matchAt. pose proof (takeWhile_all isWordChar s) as Ha.
  destruct (takeWhile isWordChar s) as [|n0 name]; [discriminate|].
  destruct (dropWhile isWordChar s) as [|c t]; [discriminate|].
  destruct (c =? EQUALS)%N; [|discriminate].
  destruct (matchValue t) as [[[[g2 g3] g4] rest]|]; [|discriminate].
  intros H; inversion H; subst; simpl. split; [discriminate | exact Ha].
Qed.

Lemma store_names (ms : list RegExpMatch) (a : Obj) :
  Forall (fun m => exists s', matchAt s' = Some m) ms ->
  NoDup (List.map fst a) /\ Forall storedName (List.map fst a) ->
  NoDup (List.map fst (fold_left store ms a))
  /\ Forall storedName (List.map fst (fold_left store ms a)).
Proof.
  intros Hms. revert a. induction Hms as [|m ms [s' Hm] _ IH]; intros a Ha;
    simpl; [exact Ha|].
  apply IH. destruct Ha as [Hnd Hst]. unfold store, assign.
  destruct (JS.eqb (matchKey m) PROTO) eqn:Ep; [split; assumption|].
  rewrite keys_defineOwn.
  destruct (hasOwn (matchKey m) a) eqn:Eh; [split; assumption|].
  split.
  - apply NoDup_app; [assumption | repeat constructor; intros [] |].
    intros k Hk [<-|[]]. apply hasOwn_In in Hk. congruence.
  - apply Forall_app. split; [assumption|]. constructor; [|constructor].
    destruct (matchAt_name _ _ Hm) as [Hne Hw].
    destruct (toLowerCase_word _ Hw) as [Hw' Hl]. unfold matchKey.
    repeat split; try assumption.
    + destruct (group1 m); [congruence | discriminate].
    + now apply eqb_neq.
Qed.

Lemma parseAttributes_names (str : JSString) :
  NoDup (List.map fst (parseAttributes str))
  /\ Forall storedName (List.map fst (parseAttributes str)).
Proof.
  rewrite parseAttributes_fold. apply store_names.
  - apply matches_matchAt.
  - split; constructor.
Qed.

Lemma replaceAll2_absent (a b r : char) (s : JSString) :
  Forall (fun c => c <> a) s -> replaceAll2 a b r s = s.
Proof.
  induction 1 as [|x t Hx Ht IH]; [reflexivity|].
  simpl. destruct t as [|y t']; [reflexivity|].
  apply N.eqb_neq in Hx. rewrite Hx. simpl andb. cbv iota. now rewrite IH.
Qed.

(** The tokenizer on one serialised entry followed by [rest]. *)
Lemma matchAt_entry (k : JSString) (v : JSValue) (rest : JSString) :
  storedName k ->
  Forall (fun c => c <> DQUOTE) (valueText v) ->
  matchAt (serializeEntry k v ++ rest)
  = Some (mkMatch k (Str (valueText v)) undefined undefined rest).
Proof.
  intros [Hne [Hw _]] Hq. unfold serializeEntry, quoted, matchAt.
  rewrite <- !app_assoc. simpl app.
  destruct (takeWhile_app_stop isWordChar k EQUALS
              (DQUOTE :: (valueText v ++ [DQUOTE]) ++ rest) Hw eq_refl)
    as [-> ->].
  destruct k as [|c0 k0]; [congruence|].
  rewrite N.eqb_refl. unfold matchValue, matchQuoted. rewrite N.eqb_refl.
  rewrite <- app_assoc. simpl app.
  assert (Hq' : Forall (fun x => negb (x =? DQUOTE)%N = true) (valueText v)).
  { eapply Forall_impl; [|exact Hq]. simpl. intros c Hc.
    apply negb_true_iff. now apply N.eqb_neq. }
  destruct (takeWhile_app_stop (fun x => negb (x =? DQUOTE)%N)
              (valueText v) DQUOTE rest Hq' eq_refl) as [-> ->].
  reflexivity.
Qed.

Lemma store_entry (k : JSString) (v : JSValue) (rest : JSString) (a : Obj) :
  storedName k -> properValue v ->
  store a (mkMatch k (Str (valueText v)) undefined undefined rest)
  = defineOwn k (unescapeValue v) a.
Proof.
  intros [_ [_ [Hl Hp]]] Hv. unfold store, assign, matchKey, matchValueOf.
  simpl group1. simpl group2. simpl group3. simpl group4. rewrite Hl.
  apply eqb_neq in Hp. rewrite Hp. f_equal.
  destruct Hv as [->|[c [t ->]]]; reflexivity.
Qed.

Lemma parseFrom_exec_eq (s1 s2 : JSString) (a : Obj) :
  exec s1 = exec s2 -> parseFrom s1 a = parseFrom s2 a.
Proof.
  intros H. destruct (exec s2) as [m|] eqn:E.
  - rewrite (parseFrom_some _ a _ H), (parseFrom_some _ a _ E). reflexivity.
  - rewrite (parseFrom_none _ a H), (parseFrom_none _ a E). reflexivity.
Qed.

Lemma parseFrom_entry (e : JSString * JSValue) (rest : JSString) (a : Obj) :
  unquotedEntry e ->
  parseFrom (entryText e ++ rest) a
  = parseFrom rest (defineOwn (fst e) (unescapeValue (snd e)) a).
Proof.
  intros [Hn [Hv Hq]]. unfold entryText.
  pose proof (matchAt_exec _ _ (matchAt_entry (fst e) (snd e) rest Hn Hq)) as He.
  rewrite (parseFrom_some _ a _ He). simpl after.
  now rewrite store_entry.
Qed.

Lemma parseFrom_entries (l : list (JSString * JSValue)) (a : Obj) :
  Forall unquotedEntry l ->
  parseFrom (join [SPACE] (List.map entryText l)) a
  = fold_left (fun o e => defineOwn (fst e) (snd e) o) (List.map readBack l) a.
Proof.
  intros Hl. revert a. induction Hl as [|e l He Hl IH]; intros a.
  - reflexivity.
  - simpl fold_left. rewrite <- IH. clear IH.
    destruct l as [|e' l'].
    + simpl. rewrite <- (app_nil_r (entryText e)).
      now rewrite parseFrom_entry.
    + change (join [SPACE] (List.map entryText (e :: e' :: l')))
        with (entryText e ++ [SPACE] ++ join [SPACE] (List.map entryText (e' :: l'))).
      rewrite parseFrom_entry by assumption.
      apply parseFrom_exec_eq. simpl app. apply exec_skip.
      now apply matchAt_not_word.
Qed.

Lemma fold_defineOwn_fresh (l : list (JSString * JSValue)) (a : Obj) :
  NoDup (List.map fst a ++ List.map fst l) ->
  fold_left (fun o e => defineOwn (fst e) (snd e) o) l a = a ++ l.
Proof.
  revert a. induction l as [|[k v] l IH]; intros a Hnd; simpl.
  - now rewrite app_nil_r.
  - rewrite defineOwn_fresh.
    + rewrite IH; [now rewrite <- app_assoc|].
      rewrite map_app. simpl. now rewrite <- app_assoc.
    + simpl in Hnd. apply NoDup_remove_2 in Hnd. intros Hin. apply Hnd.
      apply in_or_app. now left.
Qed.

Lemma get_tabulate (f : JSString -> JSValue) (k : JSString) (ks : list JSString) :
  get k (List.map (fun k' => (k', f k')) ks)
  = if in_dec (list_eq_dec N.eq_dec) k ks then f k else undefined.
Proof.
  induction ks as [|k1 ks IH]; simpl; [reflexivity|].
  destruct (JS.eqb k k1) eqn:E.
  - apply eqb_eq in E. subst k1.
    destruct (list_eq_dec N.eq_dec k k); [reflexivity | congruence].
  - apply eqb_neq in E. rewrite IH.
    destruct (list_eq_dec N.eq_dec k1 k); [congruence|].
    now destruct (in_dec (list_eq_dec N.eq_dec) k ks).
Qed.

Lemma Object_keys_idem (o o' : Obj) :
  List.map fst o' = Object_keys o -> Object_keys o' = Object_keys o.
Proof.
  intros H. unfold Object_keys at 1. rewrite H. unfold Object_keys.
  set (I := sortByIndex (filter isArrayIndex (List.map fst o))).
  set (N := filter (fun k => negb (isArrayIndex k)) (List.map fst o)).
  assert (Hi : Forall (fun k => isArrayIndex k = true) I)
    by apply sortByIndex_Forall, filter_Forall.
  assert (Hn : Forall (fun k => negb (isArrayIndex k) = true) N)
    by apply filter_Forall.
  assert (A1 : filter isArrayIndex (I ++ N) = I).
  { rewrite filter_app, (filter_all _ _ _ Hi), filter_none, app_nil_r;
      [reflexivity|].
    eapply Forall_impl; [|exact Hn]. simpl. intros k Hk.
    now apply negb_true_iff. }
  assert (A2 : filter (fun k => negb (isArrayIndex k)) (I ++ N) = N).
  { rewrite filter_app, (filter_all _ _ _ Hn), filter_none; [reflexivity|].
    eapply Forall_impl; [|exact Hi]. simpl. intros k Hk. now rewrite Hk. }
  rewrite A1, A2. f_equal. apply sortByIndex_of_sorted, sortByIndex_sorted.
Qed.

(** The values of a mapping produced by the tokenizer, read back. *)
Lemma get_readBack (k : JSString) (m : Obj) (ks : list JSString) :
  get k (List.map readBack (List.map (fun k' => (k', get k' m)) ks))
  = if in_dec (list_eq_dec N.eq_dec) k ks then unescapeValue (get k m)
    else undefined.
Proof.
  rewrite map_map. unfold readBack. simpl.
  apply (get_tabulate (fun k' => unescapeValue (get k' m))).
Qed.

(** C9, as the code has it.  Take a mapping produced by the tokenizer in
    which no value holds a double quote; write each entry as its name, an
    equals sign and its value between double quotes, the entries separated
    by one space, and tokenize that text.  The result has the same names in
    the same order, and each value is the former value with the escape
    replacements applied once more.  So it is the same mapping exactly when
    those replacements change no value. *)
Theorem retokenize_unquoted_mapping (str : JSString) :
  (forall k, unquotedValue (get k (parseAttributes str))) ->
  Object_keys (parseAttributes (serialize (parseAttributes str)))
  = Object_keys (parseAttributes str)
  /\ (forall k, get k (parseAttributes (serialize (parseAttributes str)))
                = unescapeValue (get k (parseAttributes str)))
  /\ (sameMapping (parseAttributes (serialize (parseAttributes str)))
        (parseAttributes str)
      <-> forall k, unescapeValue (get k (parseAttributes str))
                    = get k (parseAttributes str)).
Proof.
  intros Hplain. set (m := parseAttributes str) in *.
  destruct (parseAttributes_names str) as [Hnd Hst]. fold m in Hnd, Hst.
  set (l := List.map (fun k => (k, get k m)) (Object_keys m)).
  assert (Hkeys : List.map fst (List.map readBack l) = Object_keys m).
  { unfold l. rewrite !map_map. simpl. apply map_id. }
  assert (Hl : Forall unquotedEntry l).
  { unfold l. apply Forall_forall. intros e He. apply in_map_iff in He.
    destruct He as [k [<- Hk]]. split; [|split]; simpl.
    - rewrite Forall_forall in Hst. apply (Hst k). now apply Object_keys_In.
    - apply parseAttributes_proper.
    - apply Hplain. }
  assert (Hre : parseAttributes (serialize m) = List.map readBack l).
  { unfold parseAttributes. fold (parseFrom (serialize m) []).
    unfold serialize.
    replace (List.map (fun k => serializeEntry k (get k m)) (Object_keys m))
      with (List.map entryText l) by (unfold l; now rewrite map_map).
    rewrite (parseFrom_entries l [] Hl).
    rewrite fold_defineOwn_fresh; [reflexivity|]. simpl. rewrite Hkeys.
    apply (Permutation_NoDup (Object_keys_perm m) Hnd). }
  assert (Hk : Object_keys (parseAttributes (serialize m)) = Object_keys m).
  { rewrite Hre. now apply Object_keys_idem. }
  assert (Hg : forall k, get k (parseAttributes (serialize m))
                         = unescapeValue (get k m)).
  { intros k. rewrite Hre. unfold l. rewrite get_readBack.
    destruct (in_dec (list_eq_dec N.eq_dec) k (Object_keys m)) as [Hin|Hn];
      [reflexivity|].
    rewrite get_not_In; [reflexivity|]. now rewrite <- Object_keys_In. }
  split; [exact Hk|]. split; [exact Hg|]. split.
  - intros [_ H] k. rewrite <- Hg. apply H.
  - intros H. split; [exact Hk|]. intros k. rewrite Hg. apply H.
Qed.

Lemma retokenize_unquoted_mapping_witness :
  get (js "a")
    (parseAttributes (js "Id='p q' a='x" ++ [BACKSLASH] ++ js "zy' 7=z x="))
  = Str (js "x" ++ [BACKSLASH] ++ js "zy")
  /\ sameMapping
       (parseAttributes
          (serialize
             (parseAttributes
                (js "Id='p q' a='x" ++ [BACKSLASH] ++ js "zy' 7=z x="))))
       (parseAttributes (js "Id='p q' a='x" ++ [BACKSLASH] ++ js "zy' 7=z x=")).
Proof.
  set (str := js "Id='p q' a='x" ++ [BACKSLASH] ++ js "zy' 7=z x=").
  assert (E : parseAttributes str
              = [(js "id", Str (js "p q"));
                 (js "a", Str (js "x" ++ [BACKSLASH] ++ js "zy"));
                 (js "7", Str (js "z"))]) by reflexivity.
  split; [rewrite E; reflexivity|].
  apply (retokenize_unquoted_mapping str).
  - intros k. unfold unquotedValue. rewrite E. simpl.
    repeat match goal with
           | |- context [JS.eqb ?a ?b] => destruct (JS.eqb a b)
           end;
      repeat constructor; discriminate.
  - intros k. rewrite E. simpl.
    repeat match goal with
           | |- context [JS.eqb ?a ?b] => destruct (JS.eqb a b)
           end;
      reflexivity.
Defined.

(** C9 as stated fails in two ways.  On the mapping of the text a, equals
    sign, and between single quotes x, double quote, y: the value holds a
    double quote, and its serialisation is cut at that double quote when
    tokenized again.  On the mapping of the text a, equals sign, and between
    single quotes four backslashes: the value is two backslashes, which are
    read back as one. *)
Lemma retokenize_counterexamples :
  (let str := js "a='x" ++ [DQUOTE] ++ js "y'" in
   parseAttributes str = [(js "a", Str (js "x" ++ [DQUOTE] ++ js "y"))]
   /\ serialize (parseAttributes str)
      = js "a=" ++ quoted (js "x" ++ [DQUOTE] ++ js "y")
   /\ parseAttributes (serialize (parseAttributes str))
      = [(js "a", Str (js "x"))]
   /\ ~ sameMapping (parseAttributes (serialize (parseAttributes str)))
          (parseAttributes str))
  /\ (let str := js "a='" ++ repeat BACKSLASH 4 ++ js "'" in
      parseAttributes str = [(js "a", Str [BACKSLASH; BACKSLASH])]
      /\ serialize (parseAttributes str)
         = js "a=" ++ quoted [BACKSLASH; BACKSLASH]
      /\ parseAttributes (serialize (parseAttributes str))
         = [(js "a", Str [BACKSLASH])]
      /\ ~ sameMapping (parseAttributes (serialize (parseAttributes str)))
             (parseAttributes str)).
Proof.
  cbv zeta. repeat split; try reflexivity.
  - intros [_ H]. specialize (H (js "a")). vm_compute in H. discriminate.
  - intros [_ H]. specialize (H (js "a")). vm_compute in H. discriminate.
Qed.

(** * Further properties of the parser *)

(** ** White space around the command *)

Lemma dropWhile_app (p : char -> bool) (a b : JSString) :
  dropWhile p (a ++ b) =
  match dropWhile p a with
  | [] => dropWhile p b
  | _ :: _ => dropWhile p a ++ b
  end.
Proof.
  induction a as [|x a IH]; simpl.
  - now destruct (dropWhile p b).
  - destruct (p x); [exact IH | reflexivity].
Qed.

Lemma dropWhile_all (p : char -> bool) (a : JSString) :
  Forall (fun c => p c = true) a -> dropWhile p a = [].
Proof. induction 1 as [|x a Hx Ha IH]; simpl; [reflexivity | now rewrite Hx]. Qed.

Lemma dropWhile_spaces_app (w s : JSString) :
  allSpaces w -> dropWhile isWhiteSpace (w ++ s) = dropWhile isWhiteSpace s.
Proof. intros H. now rewrite dropWhile_app, (dropWhile_all _ _ H). Qed.

Lemma trimEnd_app (a b : JSString) :
  trimEnd (a ++ b) =
  match trimEnd b with
  | [] => trimEnd a
  | _ :: _ => a ++ trimEnd b
  end.
Proof.
  unfold trimEnd. rewrite rev_app_distr, dropWhile_app.
  destruct (dropWhile isWhiteSpace (rev b)) as [|x r] eqn:E.
  - reflexivity.
  - rewrite rev_app_distr, rev_involutive.
    destruct (rev (x :: r)) eqn:E'; [|reflexivity].
    apply (f_equal (@List.length char)) in E'. rewrite length_rev in E'.
    discriminate E'.
Qed.

Lemma trimEnd_spaces (w : JSString) : allSpaces w -> trimEnd w = [].
Proof.
  intros H. unfold trimEnd. rewrite dropWhile_all; [reflexivity|].
  now apply Forall_rev.
Qed.

Lemma trim_spaces_around (w1 s w2 : JSString) :
  allSpaces w1 -> allSpaces w2 -> trim (w1 ++ s ++ w2) = trim s.
Proof.
  intros H1 H2. change (trim (w1 ++ s ++ w2))
    with (trimEnd (dropWhile isWhiteSpace (w1 ++ s ++ w2))).
  change (trim s) with (trimEnd (dropWhile isWhiteSpace s)).
  rewrite (dropWhile_spaces_app w1 (s ++ w2) H1), dropWhile_app.
  destruct (dropWhile isWhiteSpace s) as [|x r] eqn:E.
  - rewrite (dropWhile_all _ _ H2). reflexivity.
  - rewrite trimEnd_app, (trimEnd_spaces _ H2). reflexivity.
Qed.

(** X1.  White space before and after the command line does not matter:
    the line parses to the same result, or fails with the same error, with
    or without it. *)
Theorem surrounding_spaces_ignored (w1 commandString w2 : JSString) :
  allSpaces w1 -> allSpaces w2 ->
  parseLarkTreeCommand (w1 ++ commandString ++ w2)
  = parseLarkTreeCommand commandString.
Proof.
  intros H1 H2. unfold parseLarkTreeCommand. cbv zeta.
  now rewrite (trim_spaces_around w1 commandString w2 H1 H2).
Qed.

Lemma surrounding_spaces_ignored_witness :
  parseLarkTreeCommand ([TAB; SPACE] ++ js "SET id=x a=b" ++ [SPACE; NEWLINE])
  = parseLarkTreeCommand (js "SET id=x a=b").
Proof.
  apply surrounding_spaces_ignored; repeat constructor.
Defined.

(** ** The keyword: letter case and the white space after it *)

Lemma upper_char_capital (c p : char) :
  upper_char c = p -> isUpper p = true -> isWhiteSpace c = false.
Proof.
  unfold upper_char. destruct (isLower c) eqn:E; intros <- H; char_cases.
Qed.

Lemma keyword_capitals (k : Kind) :
  Forall (fun p => isUpper p = true) (keyword k).
Proof. destruct k; repeat constructor. Qed.

Lemma toUpperCase_no_space (kw pat : JSString) :
  toUpperCase kw = pat -> Forall (fun p => isUpper p = true) pat ->
  Forall (fun c => isWhiteSpace c = false) kw.
Proof.
  intros <- H. induction kw as [|c kw IH]; [constructor|].
  simpl in H. inversion H; subst. constructor; [|now apply IH].
  now apply (upper_char_capital c (upper_char c)).
Qed.

Lemma keyword_no_space (kw : JSString) (k : Kind) :
  toUpperCase kw = keyword k ->
  kw <> [] /\ Forall (fun c => isWhiteSpace c = false) kw.
Proof.
  intros H. split.
  - intros ->. destruct k; discriminate H.
  - apply (toUpperCase_no_space kw (keyword k) H), keyword_capitals.
Qed.

Lemma dropWhile_stop (p : char -> bool) (c : char) (s : JSString) :
  p c = false -> dropWhile p (c :: s) = c :: s.
Proof. intros H. simpl. now rewrite H. Qed.

Lemma trim_word (kw rest : JSString) :
  kw <> [] -> Forall (fun c => isWhiteSpace c = false) kw ->
  trim (kw ++ rest) = kw ++ trimEnd rest.
Proof.
  intros Hne Hf.
  change (trim (kw ++ rest))
    with (trimEnd (dropWhile isWhiteSpace (kw ++ rest))).
  assert (Hend : trimEnd kw = kw).
  { unfold trimEnd. apply Forall_rev in Hf.
    destruct (rev kw) as [|c r] eqn:E.
    - apply (f_equal (@rev char)) in E. rewrite rev_involutive in E.
      simpl in E. contradiction.
    - inversion Hf; subst. rewrite dropWhile_stop by assumption.
      rewrite <- E. apply rev_involutive. }
  destruct kw as [|c kw']; [contradiction|].
  inversion Hf; subst. simpl app. rewrite dropWhile_stop by assumption.
  change (c :: kw' ++ rest) with ((c :: kw') ++ rest).
  rewrite trimEnd_app, Hend.
  destruct (trimEnd rest); [now rewrite app_nil_r | reflexivity].
Qed.

Lemma literal_keyword (kw r : JSString) (k k' : Kind) :
  toUpperCase kw = keyword k ->
  matchLiteralCI (keyword k') (kw ++ r)
  = if Kind_eqb k k' then Some (kw, r) else None.
Proof.
  intros Hk. destruct (Kind_eqb k k') eqn:Ek.
  - assert (k = k') by (destruct k, k'; simpl in Ek; congruence). subst k'.
    apply matchLiteralCI_spec. now split.
  - destruct (matchLiteralCI (keyword k') (kw ++ r)) as [[cap r']|] eqn:E;
      [|reflexivity].
    exfalso. apply matchLiteralCI_spec in E as [Hs Hc].
    unfold toUpperCase in *.
    destruct k, k'; simpl in Ek; try discriminate Ek;
      vm_compute in Hk; vm_compute in Hc;
      known_length kw Hk; known_length cap Hc;
      simpl in Hs; inversion Hs; subst; congruence.
Qed.

Lemma commandMatch_keyword (kw r : JSString) (k : Kind) :
  toUpperCase kw = keyword k ->
  commandMatch (kw ++ r)
  = match matchSpaces r with
    | Some r' => Some (kw, r')
    | None => None
    end.
Proof.
  intros Hk. unfold commandMatch. cbn [matchAlternatives].
  rewrite !(literal_keyword kw r k _ Hk).
  destruct k; simpl; destruct (matchSpaces r); reflexivity.
Qed.

Lemma parse_keyword (commandString kw r : JSString) (k : Kind) :
  trim commandString = kw ++ r ->
  toUpperCase kw = keyword k ->
  parseLarkTreeCommand commandString
  = match matchSpaces r with
    | Some r' => parseKind k r'
    | None => inl InvalidCommandFormat
    end.
Proof.
  intros Ht Hk. unfold parseLarkTreeCommand. cbv zeta.
  rewrite Ht, (commandMatch_keyword kw r k Hk).
  destruct (matchSpaces r) as [r'|]; [|reflexivity].
  rewrite Hk. destruct k; reflexivity.
Qed.

Lemma matchSpaces_run (w t : JSString) :
  w <> [] -> allSpaces w ->
  matchSpaces (w ++ t) = Some (dropWhile isWhiteSpace t).
Proof.
  intros Hne Hw. destruct w as [|c w']; [contradiction|].
  inversion Hw; subst. simpl. rewrite H1. f_equal.
  now apply dropWhile_spaces_app.
Qed.

Lemma trimEnd_after_spaces (w rest : JSString) :
  w <> [] -> allSpaces w ->
  matchSpaces (trimEnd (w ++ rest))
  = match trimEnd rest with
    | [] => None
    | _ :: _ => Some (dropWhile isWhiteSpace (trimEnd rest))
    end.
Proof.
  intros Hne Hw. rewrite trimEnd_app, (trimEnd_spaces w Hw).
  destruct (trimEnd rest) as [|x t] eqn:E; [reflexivity|].
  now apply matchSpaces_run.
Qed.

(** X2.  Neither the letter case of the keyword nor the amount or kind of
    white space after it matters: a line that starts with a keyword in any
    case, followed by one or more white space characters, parses exactly like
    the line with the keyword in capitals and a single space. *)
Theorem keyword_case_and_spacing_ignored
  (kw w rest : JSString) (k : Kind) :
  toUpperCase kw = keyword k ->
  w <> [] -> allSpaces w ->
  parseLarkTreeCommand (kw ++ w ++ rest)
  = parseLarkTreeCommand (keyword k ++ [SPACE] ++ rest).
Proof.
  intros Hk Hne Hw.
  assert (Hkk : toUpperCase (keyword k) = keyword k) by (destruct k; reflexivity).
  destruct (keyword_no_space kw k Hk) as [Hn1 Hf1].
  destruct (keyword_no_space (keyword k) k Hkk) as [Hn2 Hf2].
  rewrite (parse_keyword _ kw _ k (trim_word kw (w ++ rest) Hn1 Hf1) Hk).
  rewrite (parse_keyword _ (keyword k) _ k
             (trim_word (keyword k) ([SPACE] ++ rest) Hn2 Hf2) Hkk).
  rewrite (trimEnd_after_spaces w rest Hne Hw).
  rewrite (trimEnd_after_spaces [SPACE] rest); [reflexivity | discriminate |].
  repeat constructor.
Qed.

Lemma keyword_case_and_spacing_ignored_witness :
  parseLarkTreeCommand (js "rEnAmE" ++ [TAB; SPACE; SPACE] ++ js "id=x label=y")
  = parseLarkTreeCommand (js "RENAME" ++ [SPACE] ++ js "id=x label=y").
Proof.
  apply (keyword_case_and_spacing_ignored
           (js "rEnAmE") [TAB; SPACE; SPACE] (js "id=x label=y") RENAME);
    [reflexivity | discriminate | repeat constructor].
Defined.

(** ** Errors and acceptance *)

Lemma Object_keys_NoDup (o : Obj) :
  NoDup (List.map fst o) -> NoDup (Object_keys o).
Proof. apply Permutation_NoDup, Object_keys_perm. Qed.

Lemma extraAttrs_facts (str : JSString) :
  ~ In ID (extraAttrs (parseAttributes str))
  /\ NoDup (extraAttrs (parseAttributes str))
  /\ forall k, In k (extraAttrs (parseAttributes str)) ->
               hasOwn k (parseAttributes str) = true.
Proof.
  unfold extraAttrs. repeat split.
  - intros H. apply filter_In in H as [_ H]. now rewrite eqb_refl in H.
  - apply NoDup_filter, Object_keys_NoDup, parseAttributes_names.
  - intros k H. apply filter_In in H as [H _].
    now apply hasOwn_In, Object_keys_In.
Qed.

Lemma existsb_required (k : Kind) (attributes : Obj) :
  existsb (fun a => negb (truthy (get a attributes))) (required k) = true ->
  exists a, In a (required k) /\ truthy (get a attributes) = false.
Proof.
  intros H. apply existsb_exists in H as [a [Ha Hv]]. exists a. split; [assumption|].
  now apply negb_true_iff.
Qed.

Lemma parseKind_error (k : Kind) (remainder : JSString) (e : Error) :
  parseKind k remainder = inl e ->
  match e with
  | MustStartWithId k' => k' = k /\ startsWith remainder ID_PREFIX = false
  | MustHave k' =>
      k' = k /\ startsWith remainder ID_PREFIX = true
      /\ existsb (fun a => negb (truthy (get a (parseAttributes remainder))))
           (required k) = true
  | ShouldOnlyHaveId extra =>
      k = REMOVE /\ extra = extraAttrs (parseAttributes remainder)
      /\ extra <> []
  | NothingToSet => k = SET /\ extraAttrs (parseAttributes remainder) = []
  | InvalidCommandFormat | UnknownCommandType _ => False
  end.
Proof.
  destruct k; simpl;
    unfold parseAddCommand, parseRemoveCommand, parseMoveCommand,
      parseRenameCommand, parseSetCommand; cbv zeta;
    destruct (startsWith remainder ID_PREFIX); simpl;
    destruct (truthy (get ID (parseAttributes remainder))); simpl;
    try destruct (truthy (get (js "parent") (parseAttributes remainder)));
    try destruct (truthy (get (js "label") (parseAttributes remainder)));
    try destruct (extraAttrs (parseAttributes remainder)) eqn:E;
    simpl; intros H; inversion H; subst; simpl;
    repeat split; auto; discriminate.
Qed.

(** X3.  Every error identifies its cause.  The invalid-format error means
    that no keyword followed by white space starts the trimmed line; an error
    that names a kind names the kind of the line's keyword, the
    must-start-with-id error meaning that the text after the keyword does not
    start with id=, the must-have error that the prefix is there and a
    required attribute has no value; the should-only-have-id error comes from
    REMOVE lines only and carries a non-empty list of distinct names of the
    mapping, none of them id; the nothing-to-set error comes from SET lines
    only.  The unknown-command-type error of the default branch is never
    raised. *)
Theorem error_identifies_cause (commandString : JSString) (e : Error) :
  parseLarkTreeCommand commandString = inl e -> errorCause commandString e.
Proof.
  intros H. destruct (resolve commandString) as [[k remainder]|] eqn:Hr.
  - rewrite (parse_resolved _ _ _ Hr) in H. apply parseKind_error in H.
    destruct e; simpl; try contradiction.
    + destruct H as [-> Hp]. eauto.
    + destruct H as [-> [Hp Hm]]. exists remainder. repeat split; try assumption.
      now apply existsb_required.
    + destruct H as [-> [-> Hne]]. exists remainder.
      destruct (extraAttrs_facts remainder) as [H1 [H2 H3]].
      repeat split; assumption.
    + destruct H as [-> Hx]. exists remainder. split; [assumption|].
      now apply extraAttrs_nil.
  - rewrite (parse_unresolved _ Hr) in H. inversion H; subst. exact Hr.
Qed.

Lemma error_identifies_cause_witness :
  errorCause (js "REMOVE id=x b=y c=z") (ShouldOnlyHaveId [js "b"; js "c"]).
Proof.
  apply (error_identifies_cause (js "REMOVE id=x b=y c=z")). reflexivity.
Defined.

Lemma parseKind_accepted (k : Kind) (remainder : JSString) :
  (exists r, parseKind k remainder = inr r) <-> accepted k remainder.
Proof.
  unfold accepted. rewrite <- extraAttrs_nil.
  destruct k; simpl;
    unfold parseAddCommand, parseRemoveCommand, parseMoveCommand,
      parseRenameCommand, parseSetCommand; cbv zeta;
    (destruct (startsWith remainder ID_PREFIX); simpl;
     [|split; [intros [r H]; discriminate H | intros [H _]; discriminate H]]);
    (destruct (truthy (get ID (parseAttributes remainder))) eqn:Eid; simpl;
     [|split; [intros [r H]; discriminate H
              | intros [_ [H _]]; specialize (H ID (or_introl eq_refl));
                congruence]]).
  - split; [intros _ | eauto]. repeat split; try discriminate.
    intros a [<-|[]]. assumption.
  - destruct (extraAttrs (parseAttributes remainder)) eqn:E; simpl.
    + split; [intros _ | eauto]. repeat split; try discriminate.
      intros a [<-|[]]. assumption.
    + split; [intros [r H]; discriminate H|].
      intros [_ [_ [H _]]]. specialize (H eq_refl). discriminate H.
  - destruct (truthy (get (js "parent") _)) eqn:Ep; simpl.
    + split; [intros _ | eauto]. repeat split; try discriminate.
      intros a [<-|[<-|[]]]; assumption.
    + split; [intros [r H]; discriminate H|].
      intros [_ [H _]]. specialize (H (js "parent") (or_intror (or_introl eq_refl))).
      congruence.
  - destruct (truthy (get (js "label") _)) eqn:Ep; simpl.
    + split; [intros _ | eauto]. repeat split; try discriminate.
      intros a [<-|[<-|[]]]; assumption.
    + split; [intros [r H]; discriminate H|].
      intros [_ [H _]]. specialize (H (js "label") (or_intror (or_introl eq_refl))).
      congruence.
  - destruct (extraAttrs (parseAttributes remainder)) eqn:E; simpl.
    + split; [intros [r H]; discriminate H|].
      intros [_ [_ [_ H]]]. exfalso. now apply H.
    + split; [intros _ | eauto]. repeat split; try discriminate.
      intros a [<-|[]]. assumption.
Qed.

(** X4.  A line is accepted exactly when its trimmed text starts with a
    keyword followed by white space, the text after that starts with id=,
    every required attribute of the kind has a non-empty value in the
    mapping, a REMOVE line has no attribute but id, and a SET line has one
    besides id.  Nothing else is looked at: what the line holds between and
    around its attributes plays no part. *)
Theorem accepted_iff (commandString : JSString) :
  (exists r, parseLarkTreeCommand commandString = inr r)
  <-> exists k remainder,
        resolve commandString = Some (k, remainder) /\ accepted k remainder.
Proof.
  destruct (resolve commandString) as [[k remainder]|] eqn:Hr.
  - rewrite (parse_resolved _ _ _ Hr), parseKind_accepted. split.
    + intros H. now exists k, remainder.
    + intros [k' [r' [E H]]]. now inversion E; subst.
  - rewrite (parse_unresolved _ Hr). split.
    + intros [r H]. discriminate H.
    + intros [k [r [E _]]]. discriminate E.
Qed.

(** ** The fields of the result *)

Lemma keys_copy_list (source : Obj) (ks : list JSString) (target : Obj) (k : JSString) :
  In k (List.map fst
          (fold_left (fun t k' => defineOwn k' (get k' source) t) ks target))
  <-> In k (List.map fst target) \/ In k ks.
Proof.
  revert target. induction ks as [|k1 ks IH]; intros target; simpl.
  - tauto.
  - rewrite IH, keys_defineOwn. destruct (hasOwn k1 target) eqn:E.
    + apply hasOwn_In in E. split; [tauto|]. intros [H|[<-|H]]; auto.
    + rewrite in_app_iff. simpl. tauto.
Qed.

Lemma hasOwn_spread (k : JSString) (a b : Obj) :
  hasOwn k (spread a b) = hasOwn k a || hasOwn k b.
Proof.
  apply eq_true_iff_eq. rewrite orb_true_iff, !hasOwn_In.
  unfold spread, copyDataProperties. rewrite !keys_copy_list, !Object_keys_In.
  simpl. tauto.
Qed.

(** X5.  A parsed command holds the field type and one field per attribute
    of the mapping, nothing else; each attribute field has the value of the
    mapping (the later one of duplicates, undefined for an empty quoted
    value); type is the keyword in capitals unless the line has an attribute
    named type, whose value then takes its place. *)
Theorem result_fields (commandString : JSString) (r : Obj) :
  parseLarkTreeCommand commandString = inr r ->
  exists k remainder,
    resolve commandString = Some (k, remainder)
    /\ (forall key,
          hasOwn key r
          = JS.eqb key TYPE || hasOwn key (parseAttributes remainder))
    /\ (forall key,
          hasOwn key (parseAttributes remainder) = true ->
          get key r = get key (parseAttributes remainder))
    /\ (hasOwn TYPE (parseAttributes remainder) = false ->
        get TYPE r = Str (keyword k)).
Proof.
  intros H. destruct (resolve commandString) as [[k remainder]|] eqn:Hr.
  - rewrite (parse_resolved _ _ _ Hr) in H.
    apply parseKind_id in H as [Hid ->]. exists k, remainder.
    pose proof (truthy_get_In _ _ Hid) as Hin. apply hasOwn_In in Hin.
    split; [reflexivity|]. split; [|split].
    + intros key. rewrite hasOwn_spread. simpl. fold TYPE.
      destruct (JS.eqb key ID) eqn:E.
      * apply eqb_eq in E. subst key. rewrite Hin. now rewrite !orb_true_r.
      * now rewrite !orb_false_r.
    + intros key Hk. now rewrite get_spread, Hk.
    + intros Ht. now rewrite get_spread, Ht.
  - rewrite (parse_unresolved _ Hr) in H. discriminate H.
Qed.

Lemma result_fields_witness :
  exists k remainder,
    resolve (js "add id=n1 type=leaf Label='a b'") = Some (k, remainder)
    /\ (forall key,
          hasOwn key
            (spread (initialResult (js "ADD"))
               (parseAttributes (js "id=n1 type=leaf Label='a b'")))
          = JS.eqb key TYPE || hasOwn key (parseAttributes remainder))
    /\ (forall key,
          hasOwn key (parseAttributes remainder) = true ->
          get key
            (spread (initialResult (js "ADD"))
               (parseAttributes (js "id=n1 type=leaf Label='a b'")))
          = get key (parseAttributes remainder))
    /\ (hasOwn TYPE (parseAttributes remainder) = false ->
        get TYPE
          (spread (initialResult (js "ADD"))
             (parseAttributes (js "id=n1 type=leaf Label='a b'")))
        = Str (keyword k)).
Proof.
  apply (result_fields (js "add id=n1 type=leaf Label='a b'")). reflexivity.
Defined.

Lemma only_id_mapping (o : Obj) :
  NoDup (List.map fst o) -> onlyId o -> truthy (get ID o) = true ->
  exists c t, o = [(ID, Str (c :: t))].
Proof.
  intros Hnd Ho Ht. destruct o as [|[k1 v1] o'].
  - discriminate Ht.
  - assert (k1 = ID) by (apply Ho; simpl; now rewrite eqb_refl). subst k1.
    destruct o' as [|[k2 v2] o''].
    + simpl in Ht. destruct v1 as [|[|c t]]; try discriminate Ht. eauto.
    + exfalso. assert (k2 = ID).
      { apply Ho. simpl. rewrite eqb_refl. now rewrite orb_true_r. }
      subst k2. inversion Hnd as [|? ? Hn _]; subst. apply Hn. now left.
Qed.

(** X6.  A REMOVE line that parses gives exactly two fields: type with the
    value REMOVE, and id with a non-empty value. *)
Theorem remove_result_exact (commandString remainder : JSString) (r : Obj) :
  resolve commandString = Some (REMOVE, remainder) ->
  parseLarkTreeCommand commandString = inr r ->
  exists c t, r = [(TYPE, Str (js "REMOVE")); (ID, Str (c :: t))].
Proof.
  intros Hr H. rewrite (parse_resolved _ _ _ Hr) in H.
  assert (Ha : accepted REMOVE remainder)
    by (apply parseKind_accepted; eauto).
  apply parseKind_id in H as [Hid ->].
  destruct Ha as [_ [_ [Ho _]]]. specialize (Ho eq_refl).
  destruct (only_id_mapping _ (proj1 (parseAttributes_names remainder)) Ho Hid)
    as [c [t E]].
  exists c, t. rewrite E. reflexivity.
Qed.

Lemma remove_result_exact_witness :
  exists c t,
    spread (initialResult (js "REMOVE")) (parseAttributes (js "id='n 1'"))
    = [(TYPE, Str (js "REMOVE")); (ID, Str (c :: t))].
Proof.
  apply (remove_result_exact (js " remove  id='n 1'") (js "id='n 1'"));
    reflexivity.
Defined.

(** ** Names and values of the mapping *)

Lemma get_store_other (k : JSString) (m : RegExpMatch) (a : Obj) :
  matchKey m <> k -> get k (store a m) = get k a.
Proof.
  intros H. unfold store, assign.
  destruct (JS.eqb (matchKey m) PROTO); [reflexivity|].
  apply get_defineOwn_other. congruence.
Qed.

Lemma get_fold_store_other (k : JSString) (ms : list RegExpMatch) (a : Obj) :
  Forall (fun m => matchKey m <> k) ms ->
  get k (fold_left store ms a) = get k a.
Proof.
  intros H. revert a. induction H as [|m ms Hm _ IH]; intros a; simpl;
    [reflexivity|]. rewrite IH. now apply get_store_other.
Qed.

(** X7.  When a name occurs several times, the last occurrence gives the
    value: if no later match has the name of a match, the mapping holds the
    value of that match under its name. *)
Theorem later_duplicate_wins
  (str : JSString) (before : list RegExpMatch) (m : RegExpMatch)
  (later : list RegExpMatch) :
  matches str = before ++ m :: later ->
  matchKey m <> PROTO ->
  Forall (fun m' => matchKey m' <> matchKey m) later ->
  get (matchKey m) (parseAttributes str) = matchValueOf m.
Proof.
  intros Hm Hp Hl. rewrite parseAttributes_fold, Hm, fold_left_app. simpl.
  rewrite (get_fold_store_other _ _ _ Hl). unfold store, assign.
  apply eqb_neq in Hp. rewrite Hp. apply get_defineOwn_same.
Qed.

Lemma later_duplicate_wins_witness :
  get (js "id") (parseAttributes (js "id=x b=c ID=y")) = Str (js "y").
Proof.
  apply (later_duplicate_wins (js "id=x b=c ID=y")
           [mkMatch (js "id") undefined undefined (Str (js "x")) (js " b=c ID=y");
            mkMatch (js "b") undefined undefined (Str (js "c")) (js " ID=y")]
           (mkMatch (js "ID") undefined undefined (Str (js "y")) [])
           []);
    [reflexivity | discriminate | constructor].
Defined.

Lemma existsb_eqb_In (k : JSString) (l : list JSString) :
  existsb (JS.eqb k) l = true <-> In k l.
Proof.
  rewrite existsb_exists. split.
  - intros [x [Hx E]]. apply eqb_eq in E. now subst.
  - intros H. exists k. split; [assumption | apply eqb_refl].
Qed.

Lemma firstOccurrences_In (k : JSString) (l seen : list JSString) :
  In k (firstOccurrences seen l) <-> In k l /\ ~ In k seen.
Proof.
  revert seen. induction l as [|x l IH]; intros seen; simpl; [tauto|].
  destruct (existsb (JS.eqb x) seen) eqn:E.
  - apply existsb_eqb_In in E. rewrite IH. split.
    + tauto.
    + intros [[<-|H] Hn]; [contradiction | tauto].
  - assert (Hx : ~ In x seen).
    { intros Hin. apply existsb_eqb_In in Hin. congruence. }
    simpl. rewrite IH, in_app_iff. simpl.
    destruct (list_eq_dec N.eq_dec x k) as [->|Hne]; [tauto|]. tauto.
Qed.

(** X8.  The names of the mapping are exactly the names matched in the text,
    put in small letters, except __proto__, which is never stored; each is a
    non-empty run of letters, digits and underscores without capitals, and no
    name is held twice. *)
Theorem mapping_names (str : JSString) :
  NoDup (List.map fst (parseAttributes str))
  /\ hasOwn PROTO (parseAttributes str) = false
  /\ forall k,
       (hasOwn k (parseAttributes str) = true
        <-> k <> PROTO
            /\ exists m, In m (matches str) /\ toLowerCase (group1 m) = k)
       /\ (hasOwn k (parseAttributes str) = true ->
           k <> [] /\ Forall (fun c => isWordChar c = true) k
           /\ toLowerCase k = k).
Proof.
  destruct (parseAttributes_names str) as [Hnd Hst].
  assert (Hk : forall k,
             hasOwn k (parseAttributes str) = true
             <-> k <> PROTO
                 /\ exists m, In m (matches str) /\ toLowerCase (group1 m) = k).
  { intros k. rewrite hasOwn_In, parseAttributes_keys. unfold encountered.
    rewrite firstOccurrences_In, filter_In, in_map_iff. unfold notProto.
    rewrite negb_true_iff, eqb_neq. unfold matchKey. simpl.
    split.
    - intros [[[m [E Hm]] Hp] _]. split; [assumption|]. now exists m.
    - intros [Hp [m [Hm E]]]. split; [|tauto]. split; [now exists m | assumption]. }
  split; [assumption|]. split.
  - destruct (hasOwn PROTO (parseAttributes str)) eqn:E; [|reflexivity].
    apply Hk in E. destruct E as [E _]. congruence.
  - intros k. split; [apply Hk|]. intros H. apply hasOwn_In in H.
    rewrite Forall_forall in Hst. destruct (Hst k H) as [H1 [H2 [H3 _]]].
    auto.
Qed.

Lemma replaceAll2_cons2 (a b r x y : char) (t : JSString) :
  replaceAll2 a b r (x :: y :: t)
  = if (x =? a)%N && (y =? b)%N then r :: replaceAll2 a b r t
    else x :: replaceAll2 a b r (y :: t).
Proof. reflexivity. Qed.

Lemma replaceAll2_keeps_absent (a b r q : char) (s : JSString) :
  r <> q \/ b = q -> ~ In q s -> ~ In q (replaceAll2 a b r s).
Proof.
  intros Hr. remember (List.length s) as n eqn:En.
  revert s En. induction n as [n IH] using lt_wf_ind. intros s En Hs.
  destruct s as [|x [|y t]]; [exact Hs | exact Hs |].
  rewrite replaceAll2_cons2.
  apply not_in_cons in Hs as [Hx Hs]. pose proof Hs as Hyt.
  apply not_in_cons in Hs as [Hy Ht].
  destruct ((x =? a)%N && (y =? b)%N) eqn:E.
  - apply andb_true_iff in E as [_ Ey]. apply N.eqb_eq in Ey. subst y.
    destruct Hr as [Hr|Hr]; [|congruence].
    apply not_in_cons. split; [congruence|].
    apply (IH (List.length t)); [subst n; simpl; lia | reflexivity | exact Ht].
  - apply not_in_cons. split; [exact Hx|].
    apply (IH (List.length (y :: t)));
      [subst n; simpl; lia | reflexivity | exact Hyt].
Qed.

Lemma unescape_keeps_quote_absent (q : char) (s : JSString) :
  q = DQUOTE \/ q = SQUOTE -> ~ In q s -> ~ In q (unescape s).
Proof.
  intros Hq Hs. unfold unescape.
  repeat apply replaceAll2_keeps_absent; try assumption;
    destruct Hq as [-> | ->];
    solve [left; discriminate | right; reflexivity].
Qed.

Lemma matchAt_valueForm (s : JSString) (m : RegExpMatch) :
  matchAt s = Some m -> valueForm m.
Proof.
  unfold matchAt.
  destruct (takeWhile isWordChar s) as [|n0 name]; [discriminate|].
  destruct (dropWhile isWordChar s) as [|c t]; [discriminate|].
  destruct (c =? EQUALS)%N; [|discriminate].
  unfold matchValue.
  destruct (matchQuoted DQUOTE t) as [[b r]|] eqn:E2.
  { intros H; inversion H; subst. left. exists b.
    pose proof (matchQuoted_body _ _ _ _ E2) as Hb.
    unfold matchValueOf. simpl. repeat split; try assumption.
    - now destruct b.
    - apply unescape_keeps_quote_absent; auto. }
  destruct (matchQuoted SQUOTE t) as [[b r]|] eqn:E3.
  { intros H; inversion H; subst. right. left. exists b.
    pose proof (matchQuoted_body _ _ _ _ E3) as Hb.
    unfold matchValueOf. simpl. repeat split; try assumption.
    - now destruct b.
    - apply unescape_keeps_quote_absent; auto. }
  unfold matchBare. destruct t as [|d t']; [discriminate|].
  destruct (isBareStart d) eqn:Ed; [|discriminate].
  intros H; inversion H; subst. right. right. exists d, (takeWhile isBareChar t').
  repeat split; try assumption. apply takeWhile_all.
Qed.

(** X9.  Whatever the text, each match has one of three forms.  A value
    between double quotes is stored unescaped and never holds a double quote;
    a value between single quotes is stored unescaped and never holds a
    single quote; in both forms an empty value is stored as undefined.  A bare
    value starts with a letter or an underscore, goes on with letters, digits,
    underscores and hyphens, and is stored as written, with no unescaping. *)
Theorem value_forms (str : JSString) (m : RegExpMatch) :
  In m (matches str) -> valueForm m.
Proof.
  intros H. pose proof (matches_matchAt str) as Hf.
  rewrite Forall_forall in Hf. destruct (Hf m H) as [s' Hs].
  eapply matchAt_valueForm; eauto.
Qed.

Lemma value_forms_witness :
  valueForm
    (mkMatch (js "label") undefined (Str (js "a\tb")) undefined (js " k=v")).
Proof.
  apply (value_forms (js "label='a\tb' k=v")). left. reflexivity.
Defined.

(** ** Unescaping *)

Lemma replaceAll2_app_absent (a b r : char) (s u : JSString) :
  Forall (fun c => c <> a) s ->
  replaceAll2 a b r (s ++ u) = s ++ replaceAll2 a b r u.
Proof.
  induction 1 as [|x s Hx Hs IH]; [reflexivity|].
  simpl app. destruct (s ++ u) as [|y w] eqn:E.
  - destruct s; [|discriminate E]. simpl in E. subst u. reflexivity.
  - rewrite replaceAll2_cons2. apply N.eqb_neq in Hx. rewrite Hx. simpl andb.
    cbv iota. now rewrite <- IH.
Qed.

(** One replacement on a backslash followed by a character that is not a
    backslash, in plain text. *)
Lemma replace_escape (b r e : char) (s t : JSString) :
  plainText s -> plainText t -> e <> BACKSLASH ->
  replaceAll2 BACKSLASH b r (s ++ BACKSLASH :: e :: t)
  = s ++ (if (e =? b)%N then r :: t else BACKSLASH :: e :: t).
Proof.
  intros Hs Ht He. rewrite (replaceAll2_app_absent _ _ _ _ _ Hs).
  rewrite replaceAll2_cons2, N.eqb_refl. simpl andb.
  destruct (e =? b)%N.
  - now rewrite (replaceAll2_absent _ _ _ _ Ht).
  - rewrite (replaceAll2_absent BACKSLASH b r (e :: t)); [reflexivity|].
    now constructor.
Qed.

Lemma replace_plain (b r : char) (s : JSString) :
  plainText s -> replaceAll2 BACKSLASH b r s = s.
Proof. apply replaceAll2_absent. Qed.

Lemma plainText_app (s t : JSString) :
  plainText s -> plainText t -> plainText (s ++ t).
Proof. intros Hs Ht. apply Forall_app. now split. Qed.

Ltac plain_text :=
  repeat first [ assumption
               | apply plainText_app
               | apply Forall_cons
               | apply Forall_nil
               | discriminate ].

(** X10.  In a text that holds one backslash, followed by a character other
    than a backslash, unescaping replaces the pair by a double quote, a single
    quote, a newline, a carriage return or a tab when the character is a
    double quote, a single quote, n, r or t, and leaves the pair as it is for
    any other character. *)
Theorem unescape_single_escape (e : char) (s t : JSString) :
  plainText s -> plainText t -> e <> BACKSLASH ->
  unescape (s ++ BACKSLASH :: e :: t) = s ++ escapeResult e ++ t.
Proof.
  intros Hs Ht He. unfold unescape, escapeResult.
  rewrite (replace_escape DQUOTE DQUOTE e s t Hs Ht He).
  destruct (N.eqb_spec e DQUOTE) as [->|H1].
  { change (s ++ DQUOTE :: t) with (s ++ [DQUOTE] ++ t).
    assert (Hp : plainText (s ++ [DQUOTE] ++ t)) by plain_text.
    now repeat rewrite (replace_plain _ _ _ Hp). }
  rewrite (replace_escape SQUOTE SQUOTE e s t Hs Ht He).
  destruct (N.eqb_spec e SQUOTE) as [->|H2].
  { change (s ++ SQUOTE :: t) with (s ++ [SQUOTE] ++ t).
    assert (Hp : plainText (s ++ [SQUOTE] ++ t)) by plain_text.
    now repeat rewrite (replace_plain _ _ _ Hp). }
  rewrite (replace_escape BACKSLASH BACKSLASH e s t Hs Ht He).
  destruct (N.eqb_spec e BACKSLASH) as [->|_]; [contradiction|].
  rewrite (replace_escape 110%N NEWLINE e s t Hs Ht He).
  destruct (N.eqb_spec e 110%N) as [->|H3].
  { change (s ++ NEWLINE :: t) with (s ++ [NEWLINE] ++ t).
    assert (Hp : plainText (s ++ [NEWLINE] ++ t)) by plain_text.
    now repeat rewrite (replace_plain _ _ _ Hp). }
  rewrite (replace_escape 114%N CR e s t Hs Ht He).
  destruct (N.eqb_spec e 114%N) as [->|H4].
  { change (s ++ CR :: t) with (s ++ [CR] ++ t).
    assert (Hp : plainText (s ++ [CR] ++ t)) by plain_text.
    now repeat rewrite (replace_plain _ _ _ Hp). }
  rewrite (replace_escape 116%N TAB e s t Hs Ht He).
  destruct (N.eqb_spec e 116%N) as [->|H5]; reflexivity.
Qed.

Lemma unescape_single_escape_witness :
  unescape (js "a" ++ BACKSLASH :: 110%N :: js "b") = js "a" ++ [NEWLINE] ++ js "b"
  /\ unescape (js "a" ++ BACKSLASH :: 119%N :: js "b")
     = js "a" ++ [BACKSLASH; 119%N] ++ js "b".
Proof.
  split.
  - apply (unescape_single_escape 110%N (js "a") (js "b"));
      [repeat constructor; discriminate .. | discriminate].
  - apply (unescape_single_escape 119%N (js "a") (js "b"));
      [repeat constructor; discriminate .. | discriminate].
Defined.

Lemma replace_after_backslash (b r : char) (t : JSString) :
  plainText t ->
  replaceAll2 BACKSLASH b r (BACKSLASH :: t)
  = match t with
    | [] => [BACKSLASH]
    | y :: t' => if (y =? b)%N then r :: t' else BACKSLASH :: t
    end.
Proof.
  intros Ht. destruct t as [|y t']; [reflexivity|].
  rewrite replaceAll2_cons2, N.eqb_refl. simpl andb.
  inversion Ht; subst. destruct (y =? b)%N.
  - now rewrite replace_plain.
  - now rewrite (replace_plain b r (y :: t') Ht).
Qed.

Lemma replace_double (b r : char) (s t : JSString) :
  plainText s -> plainText t -> b <> BACKSLASH ->
  replaceAll2 BACKSLASH b r (s ++ BACKSLASH :: BACKSLASH :: t)
  = s ++ BACKSLASH
         :: match t with
            | [] => [BACKSLASH]
            | y :: t' => if (y =? b)%N then r :: t' else BACKSLASH :: t
            end.
Proof.
  intros Hs Ht Hb. rewrite (replaceAll2_app_absent _ _ _ _ _ Hs).
  assert (E : (BACKSLASH =? b)%N = false) by (apply N.eqb_neq; congruence).
  rewrite replaceAll2_cons2, E, andb_false_r.
  now rewrite replace_after_backslash.
Qed.

Lemma replace_double_backslash (s t : JSString) :
  plainText s -> plainText t ->
  replaceAll2 BACKSLASH BACKSLASH BACKSLASH (s ++ BACKSLASH :: BACKSLASH :: t)
  = s ++ BACKSLASH :: t.
Proof.
  intros Hs Ht. rewrite (replaceAll2_app_absent _ _ _ _ _ Hs).
  rewrite replaceAll2_cons2, N.eqb_refl. simpl andb. cbv iota.
  now rewrite replace_plain.
Qed.

Lemma replace_last_backslash (b r : char) (s : JSString) :
  plainText s ->
  replaceAll2 BACKSLASH b r (s ++ [BACKSLASH]) = s ++ [BACKSLASH].
Proof. intros Hs. now rewrite (replaceAll2_app_absent _ _ _ _ _ Hs). Qed.

(** X11.  Two backslashes in plain text become one backslash, except when
    the character after them is n, r or t: the pair is replaced first, and
    the backslash it leaves then forms an escape with that letter, so the
    result is a newline, a carriage return or a tab and no backslash at
    all. *)
Theorem unescape_double_backslash (s t : JSString) :
  plainText s -> plainText t ->
  unescape (s ++ BACKSLASH :: BACKSLASH :: t) = s ++ doubleBackslashResult t.
Proof.
  intros Hs Ht. unfold unescape, doubleBackslashResult.
  destruct t as [|y t'].
  { rewrite !replace_double by (plain_text).
    rewrite replace_double_backslash by plain_text.
    now rewrite !replace_last_backslash by plain_text. }
  assert (Hy : y <> BACKSLASH) by now inversion Ht.
  assert (Ht' : plainText t') by now inversion Ht.
  rewrite (replace_double DQUOTE DQUOTE s (y :: t') Hs Ht) by discriminate.
  destruct (N.eqb_spec y DQUOTE) as [->|H1].
  { rewrite !(replace_escape _ _ DQUOTE s t' Hs Ht' Hy). reflexivity. }
  rewrite (replace_double SQUOTE SQUOTE s (y :: t') Hs Ht) by discriminate.
  destruct (N.eqb_spec y SQUOTE) as [->|H2].
  { rewrite !(replace_escape _ _ SQUOTE s t' Hs Ht' Hy). reflexivity. }
  rewrite (replace_double_backslash s (y :: t') Hs Ht).
  rewrite (replace_escape 110%N NEWLINE y s t' Hs Ht' Hy).
  destruct (N.eqb_spec y 110%N) as [->|H3].
  { change (s ++ NEWLINE :: t') with (s ++ [NEWLINE] ++ t').
    assert (Hp : plainText (s ++ [NEWLINE] ++ t')) by plain_text.
    now repeat rewrite (replace_plain _ _ _ Hp). }
  rewrite (replace_escape 114%N CR y s t' Hs Ht' Hy).
  destruct (N.eqb_spec y 114%N) as [->|H4].
  { change (s ++ CR :: t') with (s ++ [CR] ++ t').
    assert (Hp : plainText (s ++ [CR] ++ t')) by plain_text.
    now repeat rewrite (replace_plain _ _ _ Hp). }
  rewrite (replace_escape 116%N TAB y s t' Hs Ht' Hy).
  destruct (N.eqb_spec y 116%N) as [->|H5]; reflexivity.
Qed.

Lemma unescape_double_backslash_witness :
  unescape (js "C:" ++ BACKSLASH :: BACKSLASH :: js "new")
  = js "C:" ++ NEWLINE :: js "ew"
  /\ unescape (js "C:" ++ BACKSLASH :: BACKSLASH :: js "dir")
     = js "C:" ++ BACKSLASH :: js "dir".
Proof.
  split.
  - apply (unescape_double_backslash (js "C:") (js "new"));
      repeat constructor; discriminate.
  - apply (unescape_double_backslash (js "C:") (js "dir"));
      repeat constructor; discriminate.
Defined.

(** ** Error messages *)

(** X12.  The message alone tells the failures apart: two errors with the
    same message have the same form and name the same kind, whatever the
    names listed in a should-only-have-id error. *)
Theorem message_tells_errors_apart (e1 e2 : Error) :
  message e1 = message e2 -> sameForm e1 e2.
Proof.
  destruct e1 as [|t1|k1|k1|l1|], e2 as [|t2|k2|k2|l2|];
    try destruct k1; try destruct k2; simpl sameForm;
    intros H; try exact I; try reflexivity;
    exfalso; vm_compute in H; discriminate H.
Qed.

Lemma message_tells_errors_apart_witness :
  sameForm (MustHave MOVE) (MustHave MOVE).
Proof. apply message_tells_errors_apart. reflexivity. Defined.

(** * The generator *)

(** ** The grammar in the leading comment *)

Section Splitting.

Variable sep : char.

Lemma split_not_nil (s : JSString) : split sep s <> [].
Proof.
  destruct s as [|c t]; simpl; [discriminate|].
  destruct (c =? sep)%N; [discriminate|].
  destruct (split sep t); discriminate.
Qed.

Lemma split_noSep (s : JSString) : Forall (noSep sep) (split sep s).
Proof.
  induction s as [|c t IH]; simpl.
  - repeat constructor.
  - destruct (N.eqb_spec c sep) as [->|Hc].
    + constructor; [constructor | exact IH].
    + destruct (split sep t) as [|line more]; [repeat constructor; assumption|].
      inversion IH; subst. constructor; [|assumption]. now constructor.
Qed.

Lemma split_line (x rest : JSString) :
  noSep sep x -> split sep (x ++ sep :: rest) = x :: split sep rest.
Proof.
  induction 1 as [|c x Hc Hx IH]; simpl.
  - now rewrite N.eqb_refl.
  - apply N.eqb_neq in Hc. now rewrite Hc, IH.
Qed.

Lemma split_last (x : JSString) : noSep sep x -> split sep x = [x].
Proof.
  induction 1 as [|c x Hc Hx IH]; simpl; [reflexivity|].
  apply N.eqb_neq in Hc. now rewrite Hc, IH.
Qed.

Lemma split_join (lines : list JSString) :
  lines <> [] -> Forall (noSep sep) lines -> split sep (join [sep] lines) = lines.
Proof.
  intros Hne Hl. induction Hl as [|x lines Hx Hl IH]; [contradiction|].
  destruct lines as [|y more].
  - simpl. now apply split_last.
  - change (join [sep] (x :: y :: more)) with (x ++ sep :: join [sep] (y :: more)).
    rewrite (split_line _ _ Hx), IH; [reflexivity | discriminate].
Qed.

Lemma join_split (s : JSString) : join [sep] (split sep s) = s.
Proof.
  induction s as [|c t IH]; simpl; [reflexivity|].
  pose proof (split_not_nil t) as Hn.
  destruct (c =? sep)%N eqn:E.
  - apply N.eqb_eq in E. subst c.
    destruct (split sep t) as [|line more]; [contradiction|].
    change (join [sep] ([] :: line :: more))
      with ([] ++ [sep] ++ join [sep] (line :: more)).
    now rewrite IH.
  - destruct (split sep t) as [|line more]; [contradiction|].
    destruct more as [|l2 more]; simpl in *; now rewrite <- IH.
Qed.

End Splitting.

Lemma prefix_noSep : noSep NEWLINE COMMENT_PREFIX.
Proof. repeat constructor; discriminate. Qed.

(** X13.  The leading comment gives the grammar line by line: it has as many
    lines as the grammar, each line is the three characters space, star,
    space followed by the grammar's line, and taking those three characters
    off every line gives back the grammar. *)
Theorem comment_reproduces_grammar (grammar_content : JSString) :
  split NEWLINE (commentLines grammar_content)
  = List.map (fun line => COMMENT_PREFIX ++ line) (split NEWLINE grammar_content)
  /\ join [NEWLINE]
       (List.map (skipn 3) (split NEWLINE (commentLines grammar_content)))
     = grammar_content.
Proof.
  assert (H : split NEWLINE (commentLines grammar_content)
              = List.map (fun line => COMMENT_PREFIX ++ line)
                  (split NEWLINE grammar_content)).
  { unfold commentLines. apply split_join.
    - pose proof (split_not_nil NEWLINE grammar_content).
      destruct (split NEWLINE grammar_content); [contradiction | discriminate].
    - pose proof (split_noSep NEWLINE grammar_content) as Hs.
      induction Hs as [|l ls Hl Hls IH]; cbn [List.map]; constructor;
        [|exact IH].
      apply Forall_app. split; [apply prefix_noSep | exact Hl]. }
  split; [exact H|]. rewrite H, map_map. simpl.
  rewrite map_id. apply join_split.
Qed.

Lemma commentLines_pass (grammar_content : JSString) :
  commentLines grammar_content
  = COMMENT_PREFIX ++ prefixAfterNewlines grammar_content.
Proof.
  unfold commentLines.
  induction grammar_content as [|c t IH]; [reflexivity|].
  pose proof (split_not_nil NEWLINE t) as Hn.
  cbn [split prefixAfterNewlines].
  destruct (c =? NEWLINE)%N.
  - destruct (split NEWLINE t) as [|l ls]; [contradiction|].
    change (join [NEWLINE]
              (List.map (fun line => COMMENT_PREFIX ++ line) ([] :: l :: ls)))
      with ((COMMENT_PREFIX ++ []) ++ NEWLINE
            :: join [NEWLINE]
                 (List.map (fun line => COMMENT_PREFIX ++ line) (l :: ls))).
    now rewrite IH, app_nil_r.
  - destruct (split NEWLINE t) as [|l ls]; [contradiction|].
    destruct ls as [|l2 more].
    + cbn [List.map join] in *. apply app_inv_head in IH. now rewrite IH.
    + change (join [NEWLINE]
                (List.map (fun line => COMMENT_PREFIX ++ line)
                   ((c :: l) :: l2 :: more)))
        with ((COMMENT_PREFIX ++ c :: l) ++ NEWLINE
              :: join [NEWLINE]
                   (List.map (fun line => COMMENT_PREFIX ++ line) (l2 :: more))).
      change (join [NEWLINE]
                (List.map (fun line => COMMENT_PREFIX ++ line) (l :: l2 :: more)))
        with ((COMMENT_PREFIX ++ l) ++ NEWLINE
              :: join [NEWLINE]
                   (List.map (fun line => COMMENT_PREFIX ++ line) (l2 :: more)))
        in IH.
      rewrite <- app_assoc in IH. apply app_inv_head in IH.
      rewrite <- app_assoc, <- IH. reflexivity.
Qed.

Lemma startsWith_end (x : char) (s : JSString) :
  startsWith (x :: s) COMMENT_END
  = (x =? 42)%N && match s with
                   | y :: _ => (y =? 47)%N
                   | [] => false
                   end.
Proof.
  unfold startsWith, COMMENT_END. change (js "*/") with [42%N; 47%N].
  cbn [stripPrefix]. rewrite (N.eqb_sym 42 x).
  destruct (x =? 42)%N; [|reflexivity]. destruct s as [|y s']; [reflexivity|].
  cbn [stripPrefix]. rewrite (N.eqb_sym 47 y). now destruct (y =? 47)%N.
Qed.

Lemma includes_cons (x : char) (s p : JSString) :
  includes (x :: s) p = startsWith (x :: s) p || includes s p.
Proof. reflexivity. Qed.

Lemma includes_after_prefix (u : JSString) :
  includes (COMMENT_PREFIX ++ u) COMMENT_END = includes u COMMENT_END.
Proof.
  change (COMMENT_PREFIX ++ u) with (32 :: 42 :: 32 :: u)%N.
  rewrite !includes_cons, !startsWith_end. reflexivity.
Qed.

Lemma prefixAfterNewlines_head (t : JSString) :
  match prefixAfterNewlines t with
  | y :: _ => (y =? 47)%N
  | [] => false
  end
  = match t with
    | y :: _ => (y =? 47)%N
    | [] => false
    end.
Proof.
  destruct t as [|y t']; [reflexivity|]. simpl.
  destruct (N.eqb_spec y NEWLINE) as [->|_]; reflexivity.
Qed.

Lemma includes_prefixAfterNewlines (s : JSString) :
  includes (prefixAfterNewlines s) COMMENT_END = includes s COMMENT_END.
Proof.
  induction s as [|c t IH]; [reflexivity|].
  cbn [prefixAfterNewlines].
  destruct (N.eqb_spec c NEWLINE) as [->|Hc].
  - rewrite !includes_cons, includes_after_prefix, IH, !startsWith_end.
    reflexivity.
  - rewrite !includes_cons, IH, !startsWith_end, prefixAfterNewlines_head.
    reflexivity.
Qed.

(** X14.  Nothing in the grammar is escaped for the comment: the comment
    lines hold the end-of-comment mark, a star followed by a slash, exactly
    when the grammar holds it. *)
Theorem comment_end_passes_through (grammar_content : JSString) :
  includes (commentLines grammar_content) COMMENT_END
  = includes grammar_content COMMENT_END.
Proof.
  rewrite commentLines_pass, includes_after_prefix.
  apply includes_prefixAfterNewlines.
Qed.

(** ** The grammar in the template *)

Lemma replacePair_cons (a b : char) (new : JSString) (x : char) (s : JSString) :
  replacePair a b new (x :: s)
  = match s with
    | [] => [x]
    | y :: t' =>
        if (x =? a)%N && (y =? b)%N then new ++ replacePair a b new t'
        else x :: replacePair a b new s
    end.
Proof. reflexivity. Qed.

Lemma replacePair_skip (a b : char) (new : JSString) (x : char) (s : JSString) :
  x <> a -> replacePair a b new (x :: s) = x :: replacePair a b new s.
Proof.
  intros H. rewrite replacePair_cons. apply N.eqb_neq in H.
  destruct s; [reflexivity|]. now rewrite H.
Qed.

Lemma replacePair_no_second
  (a b : char) (new : JSString) (x h : char) (s : JSString) :
  h <> b ->
  replacePair a b new (x :: h :: s) = x :: replacePair a b new (h :: s).
Proof.
  intros H. rewrite replacePair_cons. apply N.eqb_neq in H.
  now rewrite H, andb_false_r.
Qed.

Lemma escapedGrammar_once (grammar_content : JSString) :
  escapedGrammar grammar_content = escapeOnce grammar_content.
Proof.
  unfold escapedGrammar.
  remember (List.length grammar_content) as n eqn:En.
  revert grammar_content En. induction n as [n IH] using lt_wf_ind.
  intros g En. destruct g as [|c t]; [reflexivity|].
  assert (IHt : replacePair DOLLAR LBRACE [BACKSLASH; DOLLAR; LBRACE]
                  (replaceChar BACKTICK [BACKSLASH; BACKTICK] t)
                = escapeOnce t)
    by (apply (IH (List.length t)); [subst n; simpl; lia | reflexivity]).
  cbn [replaceChar escapeOnce].
  destruct (N.eqb_spec c BACKTICK) as [->|Hc].
  - simpl app. rewrite !replacePair_skip by discriminate. now rewrite IHt.
  - destruct (N.eqb_spec c DOLLAR) as [->|Hd].
    + destruct t as [|y t']; [reflexivity|].
      cbn [replaceChar] in *.
      destruct (N.eqb_spec y LBRACE) as [->|Hy].
      * simpl. f_equal. f_equal. f_equal.
        apply (IH (List.length t')); [subst n; simpl; lia | reflexivity].
      * simpl andb. cbv iota. rewrite <- IHt.
        destruct (N.eqb_spec y BACKTICK) as [->|Hb].
        -- simpl app. now rewrite replacePair_no_second by discriminate.
        -- now rewrite replacePair_no_second by assumption.
    + rewrite replacePair_skip by assumption. rewrite IHt.
      destruct t as [|y t']; reflexivity.
Qed.

(** The three ways the escaped text of a grammar starts. *)
Lemma escapeOnce_three (c : char) (t : JSString) :
  (c = BACKTICK
   /\ escapeOnce (c :: t) = BACKSLASH :: BACKTICK :: escapeOnce t)
  \/ (c = DOLLAR
      /\ exists t', t = LBRACE :: t'
                    /\ escapeOnce (c :: t)
                       = BACKSLASH :: DOLLAR :: LBRACE :: escapeOnce t')
  \/ (escapeOnce (c :: t) = c :: escapeOnce t /\ c <> BACKTICK
      /\ (c = DOLLAR -> forall t', t <> LBRACE :: t')).
Proof.
  cbn [escapeOnce].
  destruct (N.eqb_spec c BACKTICK) as [->|Hb]; [left; split; reflexivity|].
  destruct t as [|z t'].
  - right. right. repeat split; [assumption | discriminate].
  - destruct (N.eqb_spec c DOLLAR) as [->|Hd].
    + destruct (N.eqb_spec z LBRACE) as [->|Hz].
      * right. left. split; [reflexivity|]. now exists t'.
      * right. right. repeat split; [assumption|]. intros _ t'' E. congruence.
    + right. right. repeat split; [assumption|]. intros E. contradiction.
Qed.

Lemma lexTemplate_cons (st : LexState) (c : char) (t : JSString) :
  lexTemplate st (c :: t)
  = match lexStep st c with
    | Some (out, st') =>
        match lexTemplate st' t with
        | Some v => Some (out ++ v)
        | None => None
        end
    | None => None
    end.
Proof. reflexivity. Qed.

(** A character of plain text that is neither special nor a carriage
    return is emitted as it is. *)
Lemma normalChar_plain (c : char) :
  c <> BACKTICK -> c <> BACKSLASH -> c <> DOLLAR -> c <> CR ->
  normalChar c = Some ([c], Normal).
Proof.
  intros H1 H2 H3 H4. unfold normalChar.
  apply N.eqb_neq in H1, H2, H3, H4. now rewrite H1, H2, H3, H4.
Qed.

(** One character read from a known state. *)
Ltac lex_step :=
  rewrite lexTemplate_cons;
  match goal with
  | |- context [lexStep ?st ?c] =>
      let r := eval vm_compute in (lexStep st c) in
      change (lexStep st c) with r
  end;
  cbv beta iota.

(** Reading the escaped text of a grammar without backslash or carriage
    return gives the grammar, also after a dollar sign that is held back. *)
Lemma lex_plain (g : JSString) :
  plainText g -> ~ In CR g ->
  lexTemplate Normal (escapeOnce g) = Some g
  /\ ((forall t', g <> LBRACE :: t') ->
      lexTemplate Dollar (escapeOnce g) = Some (DOLLAR :: g)).
Proof.
  remember (List.length g) as n eqn:En.
  revert g En. induction n as [n IH] using lt_wf_ind.
  intros g En Hp Hc. destruct g as [|c t]; [split; reflexivity|].
  assert (Hcb : c <> BACKSLASH) by now inversion Hp.
  assert (Hpt : plainText t) by now inversion Hp.
  assert (Hcc : c <> CR) by (intros ->; apply Hc; now left).
  assert (Hct : ~ In CR t) by (intros H; apply Hc; now right).
  destruct (escapeOnce_three c t)
    as [[-> E]|[[-> [t' [-> E]]]|[E [Hb Hd]]]]; rewrite E; clear E.
  - destruct (IH (List.length t) ltac:(subst n; simpl; lia) t eq_refl Hpt Hct)
      as [IHn _].
    split; [|intros _]; repeat lex_step; now rewrite IHn.
  - assert (Hpt' : plainText t') by now inversion Hpt.
    assert (Hct' : ~ In CR t') by (intros H; apply Hct; now right).
    destruct (IH (List.length t') ltac:(subst n; simpl; lia) t' eq_refl Hpt' Hct')
      as [IHn _].
    split; [|intros _]; repeat lex_step; now rewrite IHn.
  - destruct (IH (List.length t) ltac:(subst n; simpl; lia) t eq_refl Hpt Hct)
      as [IHn IHd].
    destruct (N.eqb_spec c DOLLAR) as [->|Hnd].
    + specialize (IHd (Hd eq_refl)).
      split; [|intros _]; lex_step; now rewrite IHd.
    + split.
      * rewrite lexTemplate_cons. cbn [lexStep].
        rewrite normalChar_plain by assumption. now rewrite IHn.
      * intros Hl. rewrite lexTemplate_cons. cbn [lexStep].
        assert (El : (c =? LBRACE)%N = false).
        { apply N.eqb_neq. intros ->. now apply (Hl t). }
        rewrite El, normalChar_plain by assumption. cbn [withPending].
        now rewrite IHn.
Qed.

(** X15.  For a grammar that holds no backslash and no carriage return, the
    template that defines originalLarkGrammar is a complete template without
    substitution, and the string it evaluates to is the grammar text: the
    backticks and the dollar-brace pairs of the grammar neither end the
    template nor open a substitution. *)
Theorem template_gives_back_grammar (grammar_content : JSString) :
  plainText grammar_content -> ~ In CR grammar_content ->
  templateValue (escapedGrammar grammar_content) = Some grammar_content.
Proof.
  intros Hp Hc. rewrite escapedGrammar_once. unfold templateValue.
  now apply lex_plain.
Qed.

Lemma template_gives_back_grammar_witness :
  templateValue (escapedGrammar (js "a: `x` ${y} $z"))
  = Some (js "a: `x` ${y} $z").
Proof.
  apply template_gives_back_grammar.
  - repeat constructor; discriminate.
  - simpl. intros H.
    repeat (destruct H as [H|H]; [discriminate H|]). exact H.
Defined.

(** ** Only then *)

Lemma utf16_length (cp : N) : (List.length (utf16 cp) <= 2)%nat.
Proof. unfold utf16. destruct (cp <? 65536)%N; simpl; lia. Qed.

Ltac split_ifs :=
  repeat match goal with
    | H : context [if ?b then _ else _] |- _ => destruct b eqn:?
    | H : Some _ = Some _ |- _ => inversion H; subst; clear H
    | H : None = Some _ |- _ => discriminate H
    end.

(** One step emits at most one character more than it reads, counted with
    what the states hold back and still owe. *)
Lemma lexStep_weight (st : LexState) (c : char) (out : JSString) (st' : LexState) :
  lexStep st c = Some (out, st') ->
  (List.length out + lexSlack st' + lexDebt st
   <= 1 + lexSlack st + lexDebt st')%nat.
Proof.
  destruct st as [| | | |n acc| |acc seen|]; simpl;
    unfold normalChar, characterEscape, withPending; intros H.
  1-4, 6, 8: split_ifs; simpl; lia.
  - destruct n as [|[|n']]; split_ifs; simpl; lia.
  - split_ifs; simpl; try lia.
    pose proof (utf16_length acc). lia.
Qed.

(** A backslash read outside an escape starts one; what is emitted with it
    was held back. *)
Lemma lexStep_backslash (st : LexState) (out : JSString) (st' : LexState) :
  lexStep st BACKSLASH = Some (out, st') ->
  (st' = Backslash /\ (List.length out + lexDebt st <= lexSlack st)%nat
   /\ ~ In CR out)
  \/ (st = Backslash /\ st' = Normal).
Proof.
  destruct st as [| | | |n acc| |acc seen|]; simpl; intros H;
    try discriminate H; inversion H; subst; clear H;
    try (left; repeat split; simpl; try lia;
         intros [E|E]; [discriminate E | exact E]);
    try (left; repeat split; simpl; try lia; intros E; exact E).
  now right.
Qed.

Lemma lexTemplate_inv (st : LexState) (c : char) (t v : JSString) :
  lexTemplate st (c :: t) = Some v ->
  exists out st' v',
    lexStep st c = Some (out, st') /\ lexTemplate st' t = Some v'
    /\ v = out ++ v'.
Proof.
  rewrite lexTemplate_cons.
  destruct (lexStep st c) as [[out st']|] eqn:E; [|discriminate].
  destruct (lexTemplate st' t) as [v'|] eqn:E'; [|discriminate].
  intros H. inversion H. exists out, st', v'. repeat split. exact E'.
Qed.

(** The escaped backtick and the escaped dollar sign, read from a state. *)
Lemma lex_escaped_backtick (st : LexState) (t v : JSString) :
  lexTemplate st (BACKSLASH :: BACKTICK :: t) = Some v ->
  exists out v',
    lexTemplate Normal t = Some v' /\ v = out ++ BACKTICK :: v'
    /\ (List.length out + lexDebt st <= lexSlack st)%nat /\ ~ In CR out.
Proof.
  intros H.
  apply lexTemplate_inv in H as (o1 & s1 & v1 & E1 & H & ->).
  apply lexStep_backslash in E1 as [(-> & Hl & Hc)|[-> ->]].
  - apply lexTemplate_inv in H as (o2 & s2 & v2 & E2 & H & ->).
    vm_compute in E2. inversion E2; subst. now exists o1, v2.
  - apply lexTemplate_inv in H as (o2 & s2 & v2 & E2 & _).
    vm_compute in E2. discriminate E2.
Qed.

Lemma lex_escaped_dollar (st : LexState) (t v : JSString) :
  lexTemplate st (BACKSLASH :: DOLLAR :: LBRACE :: t) = Some v ->
  exists out v',
    lexTemplate Normal t = Some v' /\ v = out ++ DOLLAR :: LBRACE :: v'
    /\ (List.length out + lexDebt st <= lexSlack st)%nat /\ ~ In CR out.
Proof.
  intros H.
  apply lexTemplate_inv in H as (o1 & s1 & v1 & E1 & H & ->).
  apply lexStep_backslash in E1 as [(-> & Hl & Hc)|[-> ->]].
  - apply lexTemplate_inv in H as (o2 & s2 & v2 & E2 & H & ->).
    vm_compute in E2. inversion E2; subst.
    apply lexTemplate_inv in H as (o3 & s3 & v3 & E3 & H & ->).
    vm_compute in E3. inversion E3; subst. now exists o1, v3.
  - apply lexTemplate_inv in H as (o2 & s2 & v2 & E2 & H & _).
    vm_compute in E2. inversion E2; subst.
    apply lexTemplate_inv in H as (o3 & s3 & v3 & E3 & _).
    vm_compute in E3. discriminate E3.
Qed.

(** The value is never longer than the grammar. *)
Lemma lex_length (g : JSString) :
  forall (st : LexState) (v : JSString),
    lexTemplate st (escapeOnce g) = Some v ->
    (List.length v + lexDebt st <= List.length g + lexSlack st)%nat.
Proof.
  remember (List.length g) as n eqn:En.
  revert g En. induction n as [n IH] using lt_wf_ind.
  intros g En st v H. destruct g as [|c t].
  - simpl in H. destruct st; simpl in H; inversion H; simpl; lia.
  - destruct (escapeOnce_three c t)
      as [[-> E]|[[-> [t' [-> E]]]|[E _]]]; rewrite E in H; clear E.
    + apply lex_escaped_backtick in H as (o & v' & H & -> & Hl & _).
      apply (IH (List.length t)) in H; [|subst n; simpl; lia|reflexivity].
      rewrite length_app. simpl in *. lia.
    + apply lex_escaped_dollar in H as (o & v' & H & -> & Hl & _).
      apply (IH (List.length t')) in H; [|subst n; simpl; lia|reflexivity].
      rewrite length_app. simpl in *. lia.
    + apply lexTemplate_inv in H as (o & s & v' & E & H & ->).
      apply lexStep_weight in E.
      apply (IH (List.length t)) in H; [|subst n; simpl; lia|reflexivity].
      rewrite length_app. simpl in *. lia.
Qed.

(** Outside an escape, a character other than a backslash leaves the reading
    outside an escape, and no carriage return is emitted. *)
Lemma lexStep_plain (st : LexState) (c : char) (out : JSString) (st' : LexState) :
  plainState st -> c <> BACKSLASH -> lexStep st c = Some (out, st') ->
  plainState st' /\ ~ In CR out.
Proof.
  intros Hs Hc. apply N.eqb_neq in Hc.
  destruct Hs as [-> |[-> | ->]]; simpl;
    unfold normalChar, withPending; rewrite Hc; intros H;
    split_ifs; unfold plainState; (split; [tauto|]); simpl;
    intros F; repeat (destruct F as [F|F]; try discriminate F);
    try exact F; try (subst; discriminate).
Qed.

(** With a backslash in the grammar the value is shorter than the grammar. *)
Lemma lex_length_backslash (g : JSString) :
  forall (st : LexState) (v : JSString),
    In BACKSLASH g -> plainState st ->
    lexTemplate st (escapeOnce g) = Some v ->
    (List.length v < List.length g + lexSlack st)%nat.
Proof.
  remember (List.length g) as n eqn:En.
  revert g En. induction n as [n IH] using lt_wf_ind.
  intros g En st v Hin Hs H. destruct g as [|c t]; [destruct Hin|].
  assert (Hd : lexDebt st = 0%nat)
    by (destruct Hs as [-> |[-> | ->]]; reflexivity).
  destruct (escapeOnce_three c t)
    as [[-> E]|[[-> [t' [-> E]]]|[E _]]]; rewrite E in H; clear E.
  - apply lex_escaped_backtick in H as (o & v' & H & -> & Hl & _).
    destruct Hin as [F|Hin]; [discriminate F|].
    apply (IH (List.length t)) in H;
      [|subst n; simpl; lia|reflexivity|exact Hin|now left].
    rewrite length_app. simpl in *. lia.
  - apply lex_escaped_dollar in H as (o & v' & H & -> & Hl & _).
    destruct Hin as [F|[F|Hin]]; [discriminate F|discriminate F|].
    apply (IH (List.length t')) in H;
      [|subst n; simpl; lia|reflexivity|exact Hin|now left].
    rewrite length_app. simpl in *. lia.
  - apply lexTemplate_inv in H as (o & s & v' & E & H & ->).
    destruct (N.eqb_spec c BACKSLASH) as [->|Hc].
    + apply lexStep_backslash in E as [(-> & Hl & _)|[-> _]].
      * apply lex_length in H. rewrite length_app. simpl in *. lia.
      * destruct Hs as [F|[F|F]]; discriminate F.
    + destruct Hin as [F|Hin]; [congruence|].
      pose proof (lexStep_weight _ _ _ _ E) as Hw.
      apply lexStep_plain in E as [Hs' _]; [|exact Hs|exact Hc].
      assert (Hd' : lexDebt s = 0%nat)
        by (destruct Hs' as [-> |[-> | ->]]; reflexivity).
      apply (IH (List.length t)) in H;
        [|subst n; simpl; lia|reflexivity|exact Hin|exact Hs'].
      rewrite length_app. simpl in *. lia.
Qed.

(** Without a backslash in the grammar the value holds no carriage return:
    the template gives a line feed for one. *)
Lemma lex_no_cr (g : JSString) :
  forall (st : LexState) (v : JSString),
    plainText g -> plainState st ->
    lexTemplate st (escapeOnce g) = Some v -> ~ In CR v.
Proof.
  remember (List.length g) as n eqn:En.
  revert g En. induction n as [n IH] using lt_wf_ind.
  intros g En st v Hp Hs H. destruct g as [|c t].
  - simpl in H. destruct Hs as [-> |[-> | ->]]; simpl in H; inversion H;
      simpl; intros F; repeat (destruct F as [F|F]; try discriminate F);
      exact F.
  - assert (Hcb : c <> BACKSLASH) by now inversion Hp.
    assert (Hpt : plainText t) by now inversion Hp.
    destruct (escapeOnce_three c t)
      as [[-> E]|[[-> [t' [-> E]]]|[E _]]]; rewrite E in H; clear E.
    + apply lex_escaped_backtick in H as (o & v' & H & -> & _ & Ho).
      apply (IH (List.length t)) in H;
        [|subst n; simpl; lia|reflexivity|exact Hpt|now left].
      intros F. apply in_app_or in F as [F|[F|F]];
        [now apply Ho|discriminate F|now apply H].
    + assert (Hpt' : plainText t') by now inversion Hpt.
      apply lex_escaped_dollar in H as (o & v' & H & -> & _ & Ho).
      apply (IH (List.length t')) in H;
        [|subst n; simpl; lia|reflexivity|exact Hpt'|now left].
      intros F. apply in_app_or in F as [F|[F|[F|F]]];
        [now apply Ho|discriminate F|discriminate F|now apply H].
    + apply lexTemplate_inv in H as (o & s & v' & E & H & ->).
      apply lexStep_plain in E as [Hs' Ho]; [|exact Hs|exact Hcb].
      apply (IH (List.length t)) in H;
        [|subst n; simpl; lia|reflexivity|exact Hpt|exact Hs'].
      intros F. apply in_app_or in F as [F|F];
        [now apply Ho|now apply H].
Qed.

(** X16.  Conversely, the template gives back the grammar only then: when
    the grammar holds a backslash or a carriage return, the template is cut
    short, or opens a substitution, or holds a malformed escape, or
    evaluates to another string than the grammar.  The generator escapes
    backticks and dollar-brace pairs and nothing else. *)
Theorem template_differs_otherwise (grammar_content : JSString) :
  templateValue (escapedGrammar grammar_content) = Some grammar_content ->
  plainText grammar_content /\ ~ In CR grammar_content.
Proof.
  rewrite escapedGrammar_once. unfold templateValue. intros H.
  assert (Hp : plainText grammar_content).
  { apply Forall_forall. intros c Hc ->.
    apply lex_length_backslash in H; [simpl in H; lia|exact Hc|now left]. }
  split; [exact Hp|]. apply (lex_no_cr _ _ _ Hp (or_introl eq_refl) H).
Qed.

Lemma template_differs_otherwise_witness :
  plainText (js "start: /x+/") /\ ~ In CR (js "start: /x+/").
Proof.
  apply template_differs_otherwise. reflexivity.
Defined.
